(** * basketry/zod: the schema generator, embedded and verified

    A shallow embedding of the zod schema generator of [@basketry/zod]:
    the dependency resolver [sort], the member mapper [buildMemberSchema]
    and the entity synthesizer [buildSchema], followed by the properties
    the specification states about them.

    Conventions of the embedding:
    - a JavaScript [number] carried by a rule, a constant or a default is an
      integer ([Z]) and is rendered in decimal, as a template literal does;
    - a generator ([function*]) is the list of the lines it yields;
    - [Set<string>] is [gset string];
    - functions imported from other packages ([camel] and [pascal] of [case],
      [isRequired] and [getHttpMethodByName] of [basketry],
      [String.prototype.localeCompare]) and the import alias [z()] are
      variables of the sections that use them. *)

From Stdlib Require Import ZArith List Permutation Sorted Relations Lia OrdersEx Ascii.
From stdpp Require Import gmap strings list pretty.
Import ListNotations.

Local Open Scope string_scope.
Local Open Scope list_scope.
Local Open Scope nat_scope.

(** ** The intermediate representation (basketry 0.1) *)

(** [constant.value] and [default.value]: a string, number, boolean or null
    literal. *)
Inductive Scalar : Type :=
| SString (s : string)
| SNumber (n : Z)
| SBoolean (b : bool)
| SNull.

(** Conversion of a literal inside a template literal. *)
Definition scalarToString (v : Scalar) : string :=
  match v with
  | SString s => s
  | SNumber n => pretty n
  | SBoolean true => "true"
  | SBoolean false => "false"
  | SNull => "null"
  end.

(** Validation rules of a member, one constructor per rule [id]. *)
Inductive Rule : Type :=
| Required
| StringEnum (values : list string)
| StringMinLength (len : Z)
| StringMaxLength (len : Z)
| StringPattern (pattern : string)
| NumberGT (value : Z)
| NumberGTE (value : Z)
| NumberLT (value : Z)
| NumberLTE (value : Z)
| NumberMultipleOf (value : Z)
| ArrayMinItems (min : Z)
| ArrayMaxItems (max : Z)
| ArrayUniqueItems.

(** Validation rules of a type. *)
Inductive ObjectRule : Type :=
| ObjectMinProperties (min : Z)
| ObjectMaxProperties (max : Z)
| ObjectAdditionalProperties (forbidden : bool).

(** [rules.find((r) => r.id === ...)] followed by the projection of the
    rule's payload: the payload of the first rule with the wanted id. *)
Fixpoint findRule {R A : Type} (sel : R -> option A) (rules : list R) : option A :=
  match rules with
  | [] => None
  | r :: rest =>
      match sel r with
      | Some a => Some a
      | None => findRule sel rest
      end
  end.

(** The [kind] property; a [TypedValue] (a union member) has none. *)
Inductive MemberKind : Type :=
| KindParameter
| KindProperty
| KindMapKey
| KindMapValue.

Record Member : Type := mkMember {
  kind : option MemberKind;
  name : string;
  typeName : string;
  isPrimitive : bool;
  isArray : bool;
  rules : list Rule;
  constant : option Scalar;
  default : option Scalar
}.

Definition hasKind (member : Member) : bool :=
  match kind member with Some _ => true | None => false end.

Record MapProperties : Type := mkMapProperties {
  key : Member;
  value : Member;
  requiredKeys : list string
}.

Inductive Element : Type :=
| Type_ (properties : list Member) (mapProperties : option MapProperties)
        (objectRules : list ObjectRule)
| Method (methodName : string) (parameters : list Member)
| Union (members : list Member) (discriminator : option string)
| Enum (values : list string).

Record Schema : Type := mkSchema {
  schemaName : string;
  element : Element
}.

(** HTTP binding of a method, as [getHttpMethodByName] returns it. *)
Record HttpParameter : Type := mkHttpParameter {
  httpParamName : string;
  location : string
}.

Record HttpMethod : Type := mkHttpMethod {
  httpParameters : list HttpParameter
}.

(** ** [Array.prototype.sort] with a comparator

    The sort is stable; for a consistent comparator every stable sort
    returns the same array, here computed by insertion. *)
Section ArraySort.
Context {A : Type} (cmp : A -> A -> Z).

Fixpoint insertSorted (x : A) (l : list A) : list A :=
  match l with
  | [] => [x]
  | y :: rest =>
      if (cmp x y <=? 0)%Z then x :: y :: rest
      else y :: insertSorted x rest
  end.

Fixpoint arraySort (l : list A) : list A :=
  match l with
  | [] => []
  | x :: rest => insertSorted x (arraySort rest)
  end.

(** [a] may stand before [b] in the sorted array. *)
Definition ascending (a b : A) : Prop := (cmp a b <= 0)%Z.
End ArraySort.

(** ** The dependency resolver: [sort] *)
Section Resolver.
Variable pascal : string -> string.
Variable localeCompare : string -> string -> Z.

(** Names of the complex members of a member list:
    [.filter((p) => !p.isPrimitive).map((p) => pascal(p.typeName.value))]. *)
Definition complexNames (ms : list Member) : list string :=
  map (fun p => pascal (typeName p))
      (List.filter (fun p => negb (isPrimitive p)) ms).

(** [x?.isPrimitive === false ? [pascal(x.typeName.value)] : []]. *)
Definition mapMember (m : option Member) : list string :=
  match m with
  | Some x => if isPrimitive x then [] else [pascal (typeName x)]
  | None => []
  end.

(** The [switch] over [schema.element.kind] in the body of the pass. *)
Definition complexMembers (schema : Schema) : list string :=
  match element schema with
  | Type_ properties mapProperties _ =>
      complexNames properties
        ++ mapMember (key <$> mapProperties)
        ++ mapMember (value <$> mapProperties)
  | Method _ parameters => complexNames parameters
  | Union members _ => complexNames members
  | Enum _ => []
  end.

(** The test that sends a schema to [sortable]. *)
Definition ready (sortedNames : gset string) (schema : Schema) : bool :=
  let cm := complexMembers schema in
  (length cm =? 0)%nat
  || forallb (fun n => bool_decide (n ∈ sortedNames)
                       || String.eqb n (schemaName schema)) cm.

Definition compareSchemas (a b : Schema) : Z :=
  localeCompare (schemaName a) (schemaName b).

(** State of the [while] loop at its head. *)
Record LoopState : Type := mkLoopState {
  sorted : list Schema;
  unsorted : list Schema;
  sortedNames : gset string;
  prevUnsortedLength : nat
}.

(** What one pass appends to [sorted]: [sortedSortable]. *)
Definition sortedSortable (st : LoopState) : list Schema :=
  arraySort compareSchemas (filter (ready (sortedNames st)) (unsorted st)).

(** What one pass leaves pending: [unsortable]. *)
Definition unsortable (st : LoopState) : list Schema :=
  filter (fun s => ¬ ready (sortedNames st) s) (unsorted st).

(** One execution of the loop body: either the function returns
    ([inr (sorted, circular)]) or the loop goes on from the next state. *)
Definition pass (st : LoopState) : LoopState + (list Schema * list Schema) :=
  let sortable := filter (ready (sortedNames st)) (unsorted st) in
  let sorted' := sorted st ++ sortedSortable st in
  let names' := sortedNames st ∪ list_to_set (schemaName <$> sortable) in
  let unsorted' := unsortable st in
  if (prevUnsortedLength st =? length unsorted')%nat
  then inr (sorted', unsorted')
  else inl (mkLoopState sorted' unsorted' names' (length unsorted')).

(** The [while (unsorted.length > 0)] loop; [fuel] bounds the number of
    passes, [None] means the bound was reached before the loop ended. *)
Fixpoint sortLoop (fuel : nat) (st : LoopState)
  : option (list Schema * list Schema) :=
  match unsorted st with
  | [] => Some (sorted st, [])
  | _ :: _ =>
      match fuel with
      | O => None
      | S fuel' =>
          match pass st with
          | inr result => Some result
          | inl st' => sortLoop fuel' st'
          end
      end
  end.

Definition initialState (iterable : list Schema) : LoopState :=
  mkLoopState [] iterable ∅ (length iterable).

(** [sort], run for at most [fuel] passes. *)
Definition sortWithin (fuel : nat) (iterable : list Schema)
  : option (list Schema * list Schema) :=
  sortLoop fuel (initialState iterable).

(** [sort]: as many passes as the worklist has entities always suffice
    (see [sortLoop_total]). *)
Definition sort (iterable : list Schema) : option (list Schema * list Schema) :=
  sortWithin (length iterable) iterable.
End Resolver.

(** ** Vocabulary of the resolver's specification *)
Section ResolverSpec.
Variable pascal : string -> string.

(** [a] names [b] as a direct complex dependency (self-reference apart). *)
Definition refersTo (l : list Schema) (a b : Schema) : Prop :=
  a ∈ l ∧ b ∈ l
  ∧ schemaName b ∈ complexMembers pascal a
  ∧ schemaName b ≠ schemaName a.

(** The reference graph of the worklist has no cycle. *)
Definition acyclic (l : list Schema) : Prop :=
  ∀ a, ¬ tc (refersTo l) a a.

(** Every reference resolves to an entity of the worklist. *)
Definition resolved (l : list Schema) : Prop :=
  ∀ a n, a ∈ l → n ∈ complexMembers pascal a →
         ∃ b, b ∈ l ∧ schemaName b = n.

(** Entity names are unique in the worklist. *)
Definition uniqueNames (l : list Schema) : Prop :=
  NoDup (schemaName <$> l).

(** [x] occurs before [y] in [l]. *)
Definition precedes (l : list Schema) (x y : Schema) : Prop :=
  ∃ i j, i < j ∧ l !! i = Some x ∧ l !! j = Some y.

(** Every complex member of an entity of [s] names the entity itself or
    an entity that occurs earlier in [s]. *)
Definition dependenciesFirst (s : list Schema) : Prop :=
  ∀ j e n, s !! j = Some e → n ∈ complexMembers pascal e →
           n = schemaName e
           ∨ ∃ i d, i < j ∧ s !! i = Some d ∧ schemaName d = n.

(** An entity that a pass cannot move: one of its complex members is
    neither its own name nor the name of an entity of [s]. *)
Definition blocked (s : list Schema) (e : Schema) : Prop :=
  ∃ n, n ∈ complexMembers pascal e ∧ n ≠ schemaName e
       ∧ n ∉ schemaName <$> s.

(** What holds of the loop state at the head of the loop. *)
Definition loopInvariant (st : LoopState) : Prop :=
  (∀ n, n ∈ sortedNames st ↔ n ∈ schemaName <$> sorted st)
  ∧ dependenciesFirst (sorted st)
  ∧ prevUnsortedLength st = length (unsorted st).

(** Executable checks of [resolved] and, through a rank that decreases
    along every reference, of [acyclic]. *)
Definition resolvedb (l : list Schema) : bool :=
  forallb (fun a =>
             forallb (fun n => existsb (fun b => String.eqb (schemaName b) n) l)
                     (complexMembers pascal a)) l.

Definition respectsRank (rank : Schema -> nat) (l : list Schema) : bool :=
  forallb (fun a =>
             forallb (fun b =>
                        negb (existsb (String.eqb (schemaName b))
                                      (complexMembers pascal a))
                        || String.eqb (schemaName b) (schemaName a)
                        || (rank b <? rank a)) l) l.

(** *** The references of an entity, read off the data model

    The specification counts as the direct complex dependencies of an
    entity the names of the types of all its non-primitive members: the
    declared properties and the map key and map value of a record, the
    parameters of a parameter bag, the variants of a union.  The
    definitions below say so without going through [complexMembers];
    [complexMembers_entityMembers] compares the two. *)

(** Every member an entity has, whatever its place in the entity. *)
Definition entityMembers (schema : Schema) : list Member :=
  match element schema with
  | Type_ properties mapProperties _ =>
      properties
        ++ match mapProperties with
           | Some mp => [key mp; value mp]
           | None => []
           end
  | Method _ parameters => parameters
  | Union members _ => members
  | Enum _ => []
  end.

(** The entity has a non-primitive member whose type is named [n]. *)
Definition references (schema : Schema) (n : string) : Prop :=
  ∃ m, m ∈ entityMembers schema
       ∧ isPrimitive m = false
       ∧ n = pascal (typeName m).

(** [a] has a non-primitive member of the type that [b] declares
    (self-reference apart). *)
Definition refersToEntity (l : list Schema) (a b : Schema) : Prop :=
  a ∈ l ∧ b ∈ l
  ∧ references a (schemaName b)
  ∧ schemaName b ≠ schemaName a.

(** No entity reaches itself along references. *)
Definition acyclicReferences (l : list Schema) : Prop :=
  ∀ a, ¬ tc (refersToEntity l) a a.

(** Every non-primitive member has the type of an entity of the
    worklist. *)
Definition referencesResolved (l : list Schema) : Prop :=
  ∀ a n, a ∈ l → references a n → ∃ b, b ∈ l ∧ schemaName b = n.
End ResolverSpec.

(** The layers of the output: what each pass appended, in the order of the
    passes (the same recursion as [sortLoop]). *)
Fixpoint sortLayers (pascal : string -> string)
  (localeCompare : string -> string -> Z) (fuel : nat) (st : LoopState)
  : list (list Schema) :=
  match unsorted st with
  | [] => []
  | _ :: _ =>
      match fuel with
      | O => []
      | S fuel' =>
          sortedSortable pascal localeCompare st ::
          match pass pascal localeCompare st with
          | inr _ => []
          | inl st' => sortLayers pascal localeCompare fuel' st'
          end
      end
  end.

(** No two different entities of [l] tie under the comparator. *)
Definition noTies (localeCompare : string -> string -> Z) (l : list Schema)
  : Prop :=
  ∀ a b, a ∈ l → b ∈ l →
         ascending (compareSchemas localeCompare) a b →
         ascending (compareSchemas localeCompare) b a → a = b.

(** ** The member mapper and the synthesizer *)

(** The [options] argument of [buildMemberSchema]; an absent option is
    [false], respectively the empty list. *)
Record Options : Type := mkOptions {
  preventOptional : bool;
  circular : list Schema
}.

Definition noOptions : Options := mkOptions false [].

Section Synthesizer.
Variable camel : string -> string.
Variable pascal : string -> string.
Variable z : string.
Variable isRequired : Member -> bool.
Variable getHttpMethodByName : string -> option HttpMethod.

(** The local function [shouldCoerce] of [buildMemberSchema]. *)
Definition shouldCoerce (member : Member) (parent : Schema) : bool :=
  match kind member, element parent with
  | Some KindParameter, Method methodName _ =>
      match getHttpMethodByName methodName with
      | None => false
      | Some httpMethod =>
          match List.find
                  (fun p => String.eqb (camel (httpParamName p))
                                       (camel (name member)))
                  (httpParameters httpMethod) with
          | None => false
          | Some httpParam =>
              String.eqb (location httpParam) "header"
              || String.eqb (location httpParam) "query"
              || String.eqb (location httpParam) "path"
          end
      end
  | _, _ => false
  end.

Definition coercePrefix (member : Member) (parent : Schema) : string :=
  if shouldCoerce member parent then ".coerce" else "".

(** The length constraints of a string member. *)
Definition stringLengthOps (minLengthRule maxLengthRule : option Z)
  : list string :=
  match minLengthRule with
  | Some minLen =>
      if match maxLengthRule with
         | Some maxLen => (minLen =? maxLen)%Z
         | None => false
         end
      then ["length(" +:+ pretty minLen +:+ ")"]
      else
        (if (minLen =? 1)%Z then ["nonempty()"]
         else ["min(" +:+ pretty minLen +:+ ")"])
        ++ match maxLengthRule with
           | Some maxLen => ["max(" +:+ pretty maxLen +:+ ")"]
           | None => []
           end
  | None =>
      match maxLengthRule with
      | Some maxLen => ["max(" +:+ pretty maxLen +:+ ")"]
      | None => []
      end
  end.

Definition quoted (s : string) : string := "'" +:+ s +:+ "'".

(** [case 'string']. *)
Definition stringOps (member : Member) : list string :=
  let enumRule :=
    findRule (fun r => match r with StringEnum vs => Some vs | _ => None end)
             (rules member) in
  (match constant member with
   | Some c => [z +:+ ".literal('" +:+ scalarToString c +:+ "')"]
   | None =>
       match enumRule with
       | Some vs =>
           [z +:+ ".enum(" +:+ String.concat ", " (map quoted vs) +:+ ")"]
       | None =>
           let minLengthRule :=
             findRule (fun r => match r with
                                | StringMinLength n => Some n | _ => None end)
                      (rules member) in
           let maxLengthRule :=
             findRule (fun r => match r with
                                | StringMaxLength n => Some n | _ => None end)
                      (rules member) in
           let patternRule :=
             findRule (fun r => match r with
                                | StringPattern p => Some p | _ => None end)
                      (rules member) in
           [z +:+ ".string()"]
             ++ stringLengthOps minLengthRule maxLengthRule
             ++ match patternRule with
                | Some p => ["regex(/" +:+ p +:+ "/)"]
                | None => []
                end
       end
   end)
  ++ match default member with
     | Some d => ["default('" +:+ scalarToString d +:+ "')"]
     | None => []
     end.

(** One numeric bound: the zero boundary has a name of its own. *)
Definition boundOp (rule : option Z) (atZero op : string) : list string :=
  match rule with
  | Some v =>
      if (v =? 0)%Z then [atZero +:+ "()"]
      else [op +:+ "(" +:+ pretty v +:+ ")"]
  | None => []
  end.

(** [case 'number' | 'integer' | 'long' | 'float' | 'double']. *)
Definition numberOps (member : Member) (parent : Schema) : list string :=
  let coerce := coercePrefix member parent in
  (match constant member with
   | Some c => [z +:+ ".literal(" +:+ scalarToString c +:+ ")"]
   | None =>
       let rs := rules member in
       [z +:+ coerce +:+ ".number()"]
         ++ (if String.eqb (typeName member) "integer"
                || String.eqb (typeName member) "long"
             then ["int()"] else [])
         ++ boundOp (findRule (fun r => match r with
                                        | NumberGT v => Some v | _ => None end) rs)
                    "positive" "gt"
         ++ boundOp (findRule (fun r => match r with
                                        | NumberGTE v => Some v | _ => None end) rs)
                    "nonnegative" "gte"
         ++ boundOp (findRule (fun r => match r with
                                        | NumberLT v => Some v | _ => None end) rs)
                    "negative" "lt"
         ++ boundOp (findRule (fun r => match r with
                                        | NumberLTE v => Some v | _ => None end) rs)
                    "nonpositive" "lte"
         ++ match findRule (fun r => match r with
                                     | NumberMultipleOf v => Some v
                                     | _ => None end) rs with
            | Some v => ["multipleOf(" +:+ pretty v +:+ ")"]
            | None => []
            end
   end)
  ++ match default member with
     | Some d => ["default(" +:+ scalarToString d +:+ ")"]
     | None => []
     end.

(** [case 'boolean']. *)
Definition booleanOps (member : Member) (parent : Schema) : list string :=
  let coerce := coercePrefix member parent in
  (match constant member with
   | Some c => [z +:+ ".literal(" +:+ scalarToString c +:+ ")"]
   | None => [z +:+ coerce +:+ ".boolean()"]
   end)
  ++ match default member with
     | Some d => ["default(" +:+ scalarToString d +:+ ")"]
     | None => []
     end.

Definition isNumericName (t : string) : bool :=
  String.eqb t "number" || String.eqb t "integer" || String.eqb t "long"
  || String.eqb t "float" || String.eqb t "double".

(** The [switch (member.typeName.value)] of a primitive member; a type
    name outside the cases pushes nothing. *)
Definition primitiveOps (member : Member) (parent : Schema) : list string :=
  let t := typeName member in
  if String.eqb t "null" then [z +:+ ".literal(null)"]
  else if String.eqb t "string" then stringOps member
  else if isNumericName t then numberOps member parent
  else if String.eqb t "boolean" then booleanOps member parent
  else if String.eqb t "date" || String.eqb t "date-time"
       then [z +:+ ".coerce.date()"]
  else if String.eqb t "binary" || String.eqb t "untyped"
       then [z +:+ ".any()"]
  else [].

(** The test that makes a reference lazy. *)
Definition isLazy (member : Member) (parent : Schema) (options : Options)
  : bool :=
  String.eqb (camel (typeName member)) (camel (schemaName parent))
  || existsb (fun s => String.eqb (camel (schemaName s))
                                  (camel (typeName member)))
             (circular options).

Definition lazyRef (member : Member) : string :=
  z +:+ ".lazy(()=>" +:+ pascal (typeName member) +:+ "Schema)".

Definition directRef (member : Member) : string :=
  pascal (typeName member) +:+ "Schema".

(** The reference to the schema of a complex member. *)
Definition referenceOps (member : Member) (parent : Schema)
    (options : Options) : list string :=
  if isLazy member parent options then [lazyRef member]
  else [directRef member].

(** [if (member.isArray) ...]. *)
Definition arrayOps (member : Member) : list string :=
  if isArray member then
    ["array()"]
      ++ match findRule (fun r => match r with
                                  | ArrayMinItems n => Some n | _ => None end)
                        (rules member) with
         | Some n => if (n =? 1)%Z then ["nonempty()"]
                     else ["min(" +:+ pretty n +:+ ")"]
         | None => []
         end
      ++ match findRule (fun r => match r with
                                  | ArrayMaxItems n => Some n | _ => None end)
                        (rules member) with
         | Some n => ["max(" +:+ pretty n +:+ ")"]
         | None => []
         end
  else [].

(** The final [optional()]. *)
Definition optionalOps (member : Member) (options : Options) : list string :=
  if negb (isRequired member)
     && (negb (hasKind member)
         || match kind member with
            | Some KindMapKey | Some KindMapValue => false
            | _ => true
            end)
  then
    if negb (preventOptional options)
       && (negb (isPrimitive member)
           || match default member with Some _ => false | None => true end)
    then ["optional()"] else []
  else [].

(** The array [schema] of [buildMemberSchema], before it is joined. *)
Definition memberOps (member : Member) (parent : Schema) (options : Options)
  : list string :=
  (if isPrimitive member then primitiveOps member parent
   else referenceOps member parent options)
  ++ arrayOps member
  ++ optionalOps member options.

Definition buildMemberSchema (member : Member) (parent : Schema)
    (options : Options) : string :=
  String.concat "." (memberOps member parent options).

Definition buildMember (member : Member) (parent : Schema)
    (circ : list Schema) : list string :=
  [camel (name member) +:+ ": "
     +:+ buildMemberSchema member parent (mkOptions false circ) +:+ ","].

Definition buildRequiredKey (keyName : string) (val : Member)
    (parent : Schema) (circ : list Schema) : list string :=
  [keyName +:+ ": "
     +:+ buildMemberSchema val parent (mkOptions false circ) +:+ ","].

(** *** [buildSchema], [case 'Type'] *)

Definition keySetName (name : string) : string :=
  " __" +:+ camel name +:+ "Keys".

Definition keySchemaName (name : string) : string :=
  " __" +:+ pascal name +:+ "KeySchema".

Definition maxPropertiesRule (rs : list ObjectRule) : option Z :=
  findRule (fun r => match r with ObjectMaxProperties n => Some n | _ => None end) rs.

Definition minPropertiesRule (rs : list ObjectRule) : option Z :=
  findRule (fun r => match r with ObjectMinProperties n => Some n | _ => None end) rs.

(** The declarations emitted before the schema when the map key has
    rules. *)
Definition keyPreamble (schema : Schema) (properties : list Member)
    (mapProperties : option MapProperties) : list string :=
  match mapProperties with
  | Some mp =>
      if (length (rules (key mp)) =? 0) then []
      else
        (if (length properties =? 0) then []
         else ["const " +:+ keySetName (schemaName schema)
                 +:+ " = new Set(["
                 +:+ String.concat ", " (map (fun p => quoted (name p)) properties)
                 +:+ "]);"])
        ++ ["const " +:+ keySchemaName (schemaName schema) +:+ " = "
              +:+ buildMemberSchema (key mp) schema noOptions]
  | None => []
  end.

(** The object, catch-all or record schema. *)
Definition structuralLines (schema : Schema) (circ : list Schema)
    (properties : list Member) (mapProperties : option MapProperties)
    (objectRules : list ObjectRule) : list string :=
  let maxPropCount := maxPropertiesRule objectRules in
  let requiredCount :=
    match mapProperties with
    | Some mp => length (requiredKeys mp)
    | None => 0
    end in
  if negb (length properties =? 0) || negb (requiredCount =? 0) then
    let emittedPropCount := length properties + requiredCount in
    [z +:+ ".object({"]
      ++ flat_map (fun member => buildMember member schema circ) properties
      ++ match mapProperties with
         | Some mp =>
             flat_map (fun k => buildRequiredKey (camel k) (value mp) schema circ)
                      (requiredKeys mp)
         | None => []
         end
      ++ ["})"]
      ++ match mapProperties with
         | Some mp =>
             if match maxPropCount with
                | None => true
                | Some n => (Z.of_nat emittedPropCount <? n)%Z
                end
             then [".catchall("
                     +:+ buildMemberSchema (value mp) schema noOptions +:+ ")"]
             else []
         | None => []
         end
  else
    match mapProperties with
    | Some mp =>
        [z +:+ ".record("
           +:+ buildMemberSchema (value mp) schema noOptions +:+ ")"]
    | None => [z +:+ ".record(" +:+ z +:+ ".any())"]
    end.

Definition maxKeysRefinement (n : Z) : list string :=
  [".refine(";
   "  data => Object.keys(data).length <= " +:+ pretty n +:+ ",";
   "  { message: 'Object must have at most " +:+ pretty n +:+ " keys' },";
   ")"].

Definition minKeysRefinement (n : Z) : list string :=
  [".refine(";
   "  data => Object.keys(data).length >= " +:+ pretty n +:+ ",";
   "  { message: 'Object must have at least " +:+ pretty n +:+ " keys' },";
   ")"].

(** The refinements on the number of keys. *)
Definition keyCountRefinements (mapProperties : option MapProperties)
    (objectRules : list ObjectRule) : list string :=
  match mapProperties with
  | Some _ =>
      match maxPropertiesRule objectRules with
      | Some n => maxKeysRefinement n
      | None => []
      end
      ++ match minPropertiesRule objectRules with
         | Some n => minKeysRefinement n
         | None => []
         end
  | None => []
  end.

(** The validation of the keys against the key schema. *)
Definition keyValidation (schema : Schema) (properties : list Member)
    (mapProperties : option MapProperties) : list string :=
  match mapProperties with
  | Some mp =>
      let keySchema :=
        if isPrimitive (key mp) then keySchemaName (schemaName schema)
        else pascal (typeName (key mp)) +:+ "Schema" in
      if negb (length (rules (key mp)) =? 0) || negb (isPrimitive (key mp))
      then
        [".superRefine((data, ctx) => {";
         "  for (const key of Object.keys(data)) {"]
          ++ (if (length properties =? 0) then []
              else ["    if (" +:+ keySetName (schemaName schema)
                      +:+ ".has(key)) continue;";
                    ""])
          ++ ["    const result = " +:+ keySchema +:+ ".safeParse(key);";
              "    if (result.success) continue;";
              "";
              "    for (const error of result.error.errors) {";
              "      ctx.addIssue({";
              "        code: z.ZodIssueCode.custom,";
              "        message: `Invalid key: ${error.message}`,";
              "        path: [key],";
              "      });";
              "    }";
              "  }";
              "})"]
      else []
  | None => []
  end.

Definition exportLine (schema : Schema) : string :=
  "export const " +:+ pascal (schemaName schema) +:+ "Schema = ".

(** *** [buildSchema], [case 'Union'] *)
Definition unionLines (schema : Schema) (members : list Member)
    (discriminator : option string) : list string :=
  let complexMembers := List.filter (fun m => negb (isPrimitive m)) members in
  match complexMembers with
  | [only] =>
      [exportLine schema +:+ pascal (typeName only) +:+ "Schema;"]
  | _ =>
      [match discriminator with
       | Some d =>
           exportLine schema +:+ z +:+ ".discriminatedUnion('"
             +:+ camel d +:+ "', ["
       | None => exportLine schema +:+ z +:+ ".union(["
       end]
        ++ map (fun member =>
                  if isPrimitive member
                  then buildMemberSchema member schema (mkOptions true [])
                         +:+ ","
                  else pascal (typeName member) +:+ "Schema,")
               members
        ++ ["]);"]
  end.

(** [buildSchema]: the lines of one schema declaration. *)
Definition buildSchema (schema : Schema) (circ : list Schema) : list string :=
  match element schema with
  | Type_ properties mapProperties objectRules =>
      keyPreamble schema properties mapProperties
        ++ [exportLine schema]
        ++ structuralLines schema circ properties mapProperties objectRules
        ++ keyCountRefinements mapProperties objectRules
        ++ keyValidation schema properties mapProperties
  | Method _ parameters =>
      [exportLine schema +:+ z +:+ ".object({"]
        ++ flat_map (fun member => buildMember member schema circ) parameters
        ++ ["});"]
  | Union members discriminator => unionLines schema members discriminator
  | Enum values =>
      [exportLine schema +:+ z +:+ ".enum(["]
        ++ map (fun v => "  '" +:+ v +:+ "',") values
        ++ ["]);"]
  end.

(** The second half of [body]: the declarations of the sorted schemas,
    then those of the circular ones, each followed by an empty line. *)
Definition emitSchemas (sortedSchemas circ : list Schema) : list string :=
  flat_map (fun schema => buildSchema schema [] ++ [""]) sortedSchemas
    ++ flat_map (fun schema => buildSchema schema circ ++ [""]) circ.

(** [body], from the collected worklist on. *)
Definition body (localeCompare : string -> string -> Z)
    (schemas : list Schema) : option (list string) :=
  match sort pascal localeCompare schemas with
  | Some (sortedSchemas, circ) => Some (emitSchemas sortedSchemas circ)
  | None => None
  end.
End Synthesizer.

(** ** Vocabulary of the synthesizer's specification *)

(** [m] is a declared property of the record [x], or a parameter of the
    parameter bag [x]. *)
Definition declaredMember (x : Schema) (m : Member) : Prop :=
  match element x with
  | Type_ properties _ _ => m ∈ properties
  | Method _ parameters => m ∈ parameters
  | _ => False
  end.

(** [member] is a parameter of the method [parent], and the HTTP binding
    of the method puts it in a header, in the query or in the path. *)
Definition boundToHeaderQueryOrPath (camel : string -> string)
    (getHttpMethodByName : string -> option HttpMethod)
    (member : Member) (parent : Schema) : Prop :=
  kind member = Some KindParameter
  ∧ ∃ methodName parameters httpMethod httpParam,
      element parent = Method methodName parameters
      ∧ getHttpMethodByName methodName = Some httpMethod
      ∧ List.find (fun p => String.eqb (camel (httpParamName p))
                                       (camel (name member)))
                  (httpParameters httpMethod) = Some httpParam
      ∧ (location httpParam = "header" ∨ location httpParam = "query"
         ∨ location httpParam = "path").

(** The constructor that a coercion applies to. *)
Definition baseConstructor (member : Member) : string :=
  if isNumericName (typeName member) then ".number()" else ".boolean()".

(** Whether the character [ch] occurs in a string. *)
Fixpoint containsChar (ch : ascii) (s : string) : bool :=
  match s with
  | EmptyString => false
  | String c rest => Ascii.eqb ch c || containsChar ch rest
  end.

(** The first character of a string. *)
Definition firstChar (s : string) : option ascii :=
  match s with
  | EmptyString => None
  | String c _ => Some c
  end.

(** The last character of a string. *)
Fixpoint lastChar (s : string) : option ascii :=
  match s with
  | EmptyString => None
  | String c EmptyString => Some c
  | String _ rest => lastChar rest
  end.

(** The line that the generator of [src/schema-file.ts] emits for a
    union of primitive variants. *)
Definition notSupportedMarker : string :=
  "// Primitive unions are not yet supported".

(** ** The generator of [src/schema-file.ts]

    The variant of the generator written against the tagged intermediate
    representation (a member carries a [value] whose [kind] is
    [PrimitiveValue] or [ComplexValue]; unions are [PrimitiveUnion],
    [ComplexUnion] or [DiscriminatedUnion]).  Its [sort] returns the sorted
    schemas only, and [body] emits each declaration inline. *)
Module SchemaFileTs.

Inductive ValueKind : Type := PrimitiveValue | ComplexValue.

Record MemberValue : Type := mkMemberValue {
  valueKind : ValueKind;
  typeName : string;
  isArray : bool;
  rules : list Rule;
  constant : option Scalar
}.

Inductive MemberKind : Type := KindParameter | KindProperty.

Record Member : Type := mkMember {
  kind : MemberKind;
  name : string;
  value : MemberValue
}.

Inductive Element : Type :=
| Type_ (properties : list Member)
| Method (methodName : string) (parameters : list Member)
| PrimitiveUnion (members : list MemberValue)
| ComplexUnion (members : list MemberValue)
| DiscriminatedUnion (members : list MemberValue)
| Enum (members : list string).

Record Schema : Type := mkSchema {
  schemaName : string;
  element : Element
}.

Definition isPrimitiveValue (v : MemberValue) : bool :=
  match valueKind v with PrimitiveValue => true | ComplexValue => false end.

Section Generator.
Variable camel : string -> string.
Variable pascal : string -> string.
Variable z : string.
Variable isRequired : MemberValue -> bool.
Variable getHttpMethodByName : string -> option HttpMethod.
Variable localeCompare : string -> string -> Z.

(** *** [sort] *)

Definition complexNames (ms : list Member) : list string :=
  map (fun p => pascal (typeName (value p)))
      (List.filter (fun p => negb (isPrimitiveValue (value p))) ms).

Definition complexMembers (schema : Schema) : list string :=
  match element schema with
  | Type_ properties => complexNames properties
  | Method _ parameters => complexNames parameters
  | ComplexUnion members | DiscriminatedUnion members =>
      map (fun m => pascal (typeName m)) members
  | PrimitiveUnion _ => []
  | Enum _ => []
  end.

Definition ready (sortedNames : gset string) (schema : Schema) : bool :=
  let cm := complexMembers schema in
  (length cm =? 0)
  || forallb (fun n => bool_decide (n ∈ sortedNames)
                       || String.eqb n (schemaName schema)) cm.

Definition compareSchemas (a b : Schema) : Z :=
  localeCompare (schemaName a) (schemaName b).

Record LoopState : Type := mkLoopState {
  sorted : list Schema;
  unsorted : list Schema;
  sortedNames : gset string;
  prevUnsortedLength : nat
}.

(** One execution of the loop body; [inr] is the [break]. *)
Definition pass (st : LoopState) : LoopState + list Schema :=
  let sortable := filter (ready (sortedNames st)) (unsorted st) in
  let unsortable := filter (fun s => ¬ ready (sortedNames st) s) (unsorted st) in
  let sorted' := sorted st ++ arraySort compareSchemas sortable in
  let names' := sortedNames st ∪ list_to_set (schemaName <$> sortable) in
  if (prevUnsortedLength st =? length unsortable)
  then inr sorted'
  else inl (mkLoopState sorted' unsortable names' (length unsortable)).

Fixpoint sortLoop (fuel : nat) (st : LoopState) : option (list Schema) :=
  match unsorted st with
  | [] => Some (sorted st)
  | _ :: _ =>
      match fuel with
      | O => None
      | S fuel' =>
          match pass st with
          | inr result => Some result
          | inl st' => sortLoop fuel' st'
          end
      end
  end.

Definition sort (iterable : list Schema) : option (list Schema) :=
  sortLoop (length iterable)
           (mkLoopState [] iterable ∅ (length iterable)).

(** *** [buildMember] *)

Definition shouldCoerce (member : Member) (parent : Schema) : bool :=
  match kind member, element parent with
  | KindParameter, Method methodName _ =>
      match getHttpMethodByName methodName with
      | None => false
      | Some httpMethod =>
          match List.find
                  (fun p => String.eqb (camel (httpParamName p))
                                       (camel (name member)))
                  (httpParameters httpMethod) with
          | None => false
          | Some httpParam =>
              String.eqb (location httpParam) "header"
              || String.eqb (location httpParam) "query"
              || String.eqb (location httpParam) "path"
          end
      end
  | _, _ => false
  end.

Definition stringOps (v : MemberValue) : list string :=
  match constant v with
  | Some c => [z +:+ ".literal('" +:+ scalarToString c +:+ "')"]
  | None =>
      match findRule (fun r => match r with
                               | StringEnum vs => Some vs | _ => None end)
                     (rules v) with
      | Some vs =>
          [z +:+ ".enum("
             +:+ String.concat ", " (map (fun s => "'" +:+ s +:+ "'") vs)
             +:+ ")"]
      | None =>
          let minLengthRule :=
            findRule (fun r => match r with
                               | StringMinLength n => Some n | _ => None end)
                     (rules v) in
          let maxLengthRule :=
            findRule (fun r => match r with
                               | StringMaxLength n => Some n | _ => None end)
                     (rules v) in
          [z +:+ ".string()"]
            ++ match minLengthRule with
               | Some minLen =>
                   if match maxLengthRule with
                      | Some maxLen => (minLen =? maxLen)%Z
                      | None => false
                      end
                   then ["length(" +:+ pretty minLen +:+ ")"]
                   else
                     (if (minLen =? 1)%Z then ["nonempty()"]
                      else ["min(" +:+ pretty minLen +:+ ")"])
                     ++ match maxLengthRule with
                        | Some maxLen => ["max(" +:+ pretty maxLen +:+ ")"]
                        | None => []
                        end
               | None =>
                   match maxLengthRule with
                   | Some maxLen => ["max(" +:+ pretty maxLen +:+ ")"]
                   | None => []
                   end
               end
            ++ match findRule (fun r => match r with
                                        | StringPattern p => Some p
                                        | _ => None end) (rules v) with
               | Some p => ["regex(/" +:+ p +:+ "/)"]
               | None => []
               end
      end
  end.

Definition boundOp (rule : option Z) (atZero op : string) : list string :=
  match rule with
  | Some n =>
      if (n =? 0)%Z then [atZero +:+ "()"]
      else [op +:+ "(" +:+ pretty n +:+ ")"]
  | None => []
  end.

Definition numberOps (member : Member) (parent : Schema) : list string :=
  let v := value member in
  let coerce := if shouldCoerce member parent then ".coerce" else "" in
  match constant v with
  | Some c => [z +:+ ".literal(" +:+ scalarToString c +:+ ")"]
  | None =>
      let rs := rules v in
      [z +:+ coerce +:+ ".number()"]
        ++ (if String.eqb (typeName v) "integer"
               || String.eqb (typeName v) "long"
            then ["int()"] else [])
        ++ boundOp (findRule (fun r => match r with
                                       | NumberGT n => Some n | _ => None end) rs)
                   "positive" "gt"
        ++ boundOp (findRule (fun r => match r with
                                       | NumberGTE n => Some n | _ => None end) rs)
                   "nonnegative" "gte"
        ++ boundOp (findRule (fun r => match r with
                                       | NumberLT n => Some n | _ => None end) rs)
                   "negative" "lt"
        ++ boundOp (findRule (fun r => match r with
                                       | NumberLTE n => Some n | _ => None end) rs)
                   "nonpositive" "lte"
        ++ match findRule (fun r => match r with
                                    | NumberMultipleOf n => Some n
                                    | _ => None end) rs with
           | Some n => ["multipleOf(" +:+ pretty n +:+ ")"]
           | None => []
           end
  end.

Definition booleanOps (member : Member) (parent : Schema) : list string :=
  let coerce := if shouldCoerce member parent then ".coerce" else "" in
  match constant (value member) with
  | Some c => [z +:+ ".literal(" +:+ scalarToString c +:+ ")"]
  | None => [z +:+ coerce +:+ ".boolean()"]
  end.

Definition primitiveOps (member : Member) (parent : Schema) : list string :=
  let t := typeName (value member) in
  if String.eqb t "string" then stringOps (value member)
  else if String.eqb t "number" || String.eqb t "integer"
          || String.eqb t "long" || String.eqb t "float"
          || String.eqb t "double"
       then numberOps member parent
  else if String.eqb t "boolean" then booleanOps member parent
  else if String.eqb t "date" || String.eqb t "date-time"
       then [z +:+ ".coerce.date()"]
  else if String.eqb t "binary" || String.eqb t "untyped"
       then [z +:+ ".any()"]
  else [].

Definition referenceOps (member : Member) (parent : Schema) : list string :=
  if String.eqb (camel (typeName (value member))) (camel (schemaName parent))
  then [z +:+ ".lazy(()=>" +:+ pascal (typeName (value member)) +:+ "Schema)"]
  else [pascal (typeName (value member)) +:+ "Schema"].

Definition arrayOps (v : MemberValue) : list string :=
  if isArray v then
    ["array()"]
      ++ match findRule (fun r => match r with
                                  | ArrayMinItems n => Some n | _ => None end)
                        (rules v) with
         | Some n => if (n =? 1)%Z then ["nonempty()"]
                     else ["min(" +:+ pretty n +:+ ")"]
         | None => []
         end
      ++ match findRule (fun r => match r with
                                  | ArrayMaxItems n => Some n | _ => None end)
                        (rules v) with
         | Some n => ["max(" +:+ pretty n +:+ ")"]
         | None => []
         end
  else [].

Definition memberOps (member : Member) (parent : Schema) : list string :=
  (if isPrimitiveValue (value member) then primitiveOps member parent
   else referenceOps member parent)
  ++ arrayOps (value member)
  ++ (if isRequired (value member) then [] else ["optional()"]).

Definition buildMember (member : Member) (parent : Schema) : list string :=
  [camel (name member) +:+ ": "
     +:+ String.concat "." (memberOps member parent) +:+ ","].

(** *** [body] *)

Definition exportLine (schema : Schema) : string :=
  "export const " +:+ pascal (schemaName schema) +:+ "Schema = ".

(** The union cases of the [switch]; [primitive] is
    [element.kind === 'PrimitiveUnion']. *)
Definition unionLines (schema : Schema) (unionType : string)
    (primitive : bool) (members : list MemberValue) : list string :=
  match members with
  | [only] =>
      [exportLine schema +:+ pascal (typeName only) +:+ "Schema;"]
  | _ =>
      [exportLine schema +:+ z +:+ "." +:+ unionType +:+ "(["]
        ++ (if primitive then [notSupportedMarker]
            else map (fun m => pascal (typeName m) +:+ "Schema,") members)
        ++ ["]);"]
  end.

(** The body of the [for] loop over the sorted schemas. *)
Definition schemaLines (schema : Schema) : list string :=
  match element schema with
  | Type_ properties =>
      [exportLine schema +:+ z +:+ ".object({"]
        ++ flat_map (fun member => buildMember member schema) properties
        ++ ["});"]
  | Method _ parameters =>
      [exportLine schema +:+ z +:+ ".object({"]
        ++ flat_map (fun member => buildMember member schema) parameters
        ++ ["});"]
  | PrimitiveUnion members => unionLines schema "union" true members
  | ComplexUnion members => unionLines schema "union" false members
  | DiscriminatedUnion members =>
      unionLines schema "discriminatedUnion" false members
  | Enum members =>
      [exportLine schema +:+ z +:+ ".enum(["]
        ++ map (fun v => "  '" +:+ v +:+ "',") members
        ++ ["]);"]
  end.

(** [body], from the collected worklist on. *)
Definition body (schemas : list Schema) : option (list string) :=
  match sort schemas with
  | Some sortedSchemas =>
      Some (flat_map (fun schema => schemaLines schema ++ [""]) sortedSchemas)
  | None => None
  end.
End Generator.
End SchemaFileTs.

(** ** The two resolvers side by side

    The entities of [src/schema-file.ts] read as entities of the other
    representation, with the same names and the same complex members; the
    resolver of [src/schema-file.ts] is followed through this reading. *)

Definition embedMember (m : SchemaFileTs.Member) : Member :=
  mkMember (Some match SchemaFileTs.kind m with
                 | SchemaFileTs.KindParameter => KindParameter
                 | SchemaFileTs.KindProperty => KindProperty
                 end)
           (SchemaFileTs.name m)
           (SchemaFileTs.typeName (SchemaFileTs.value m))
           (SchemaFileTs.isPrimitiveValue (SchemaFileTs.value m))
           (SchemaFileTs.isArray (SchemaFileTs.value m))
           (SchemaFileTs.rules (SchemaFileTs.value m))
           (SchemaFileTs.constant (SchemaFileTs.value m))
           None.

Definition embedVariant (primitive : bool) (v : SchemaFileTs.MemberValue)
  : Member :=
  mkMember None "" (SchemaFileTs.typeName v) primitive
           (SchemaFileTs.isArray v) (SchemaFileTs.rules v)
           (SchemaFileTs.constant v) None.

Definition embedSchema (s : SchemaFileTs.Schema) : Schema :=
  mkSchema (SchemaFileTs.schemaName s)
    match SchemaFileTs.element s with
    | SchemaFileTs.Type_ properties => Type_ (map embedMember properties) None []
    | SchemaFileTs.Method methodName parameters =>
        Method methodName (map embedMember parameters)
    | SchemaFileTs.PrimitiveUnion members =>
        Union (map (embedVariant true) members) None
    | SchemaFileTs.ComplexUnion members
    | SchemaFileTs.DiscriminatedUnion members =>
        Union (map (embedVariant false) members) None
    | SchemaFileTs.Enum members => Enum members
    end.

Definition embedState (st : SchemaFileTs.LoopState) : LoopState :=
  mkLoopState (embedSchema <$> SchemaFileTs.sorted st)
              (embedSchema <$> SchemaFileTs.unsorted st)
              (SchemaFileTs.sortedNames st)
              (SchemaFileTs.prevUnsortedLength st).

(** The vocabulary of the resolver, for the entities of
    [src/schema-file.ts]. *)
Definition tsRefersTo (pascal : string -> string)
    (l : list SchemaFileTs.Schema) (a b : SchemaFileTs.Schema) : Prop :=
  a ∈ l ∧ b ∈ l
  ∧ SchemaFileTs.schemaName b ∈ SchemaFileTs.complexMembers pascal a
  ∧ SchemaFileTs.schemaName b ≠ SchemaFileTs.schemaName a.

Definition tsUniqueNames (l : list SchemaFileTs.Schema) : Prop :=
  NoDup (SchemaFileTs.schemaName <$> l).

Definition tsBlocked (pascal : string -> string)
    (s : list SchemaFileTs.Schema) (e : SchemaFileTs.Schema) : Prop :=
  ∃ n, n ∈ SchemaFileTs.complexMembers pascal e
       ∧ n ≠ SchemaFileTs.schemaName e
       ∧ n ∉ SchemaFileTs.schemaName <$> s.

(** ** Concrete collaborators and sample models

    Instances of the imported functions on the inputs of the examples:
    on a single word the casing functions of [case] change its first
    letter only; on names made of ASCII letters and digits the default
    collation of [localeCompare] orders them without regard to case first
    and puts the lower-case letter first at the first difference in case. *)

Definition toUpper (c : ascii) : ascii :=
  let n := nat_of_ascii c in
  if (97 <=? n) && (n <=? 122) then ascii_of_nat (n - 32) else c.

Definition toLower (c : ascii) : ascii :=
  let n := nat_of_ascii c in
  if (65 <=? n) && (n <=? 90) then ascii_of_nat (n + 32) else c.

Definition pascalWord (s : string) : string :=
  match s with
  | EmptyString => EmptyString
  | String c rest => String (toUpper c) rest
  end.

Definition camelWord (s : string) : string :=
  match s with
  | EmptyString => EmptyString
  | String c rest => String (toLower c) rest
  end.

Fixpoint foldCase (s : string) : string :=
  match s with
  | EmptyString => EmptyString
  | String c rest => String (toLower c) (foldCase rest)
  end.

Definition comparisonToZ (c : comparison) : Z :=
  match c with Lt => (-1)%Z | Eq => 0%Z | Gt => 1%Z end.

(** Comparison of the character codes, left to right. *)
Definition charCodeCompare (a b : string) : Z :=
  comparisonToZ (String_as_OT.compare a b).

Definition localeCompareAscii (a b : string) : Z :=
  match String_as_OT.compare (foldCase a) (foldCase b) with
  | Eq => comparisonToZ (String_as_OT.compare b a)
  | c => comparisonToZ c
  end.

(** [isRequired] of basketry: the member has a rule with id [required]. *)
Definition hasRequiredRule (member : Member) : bool :=
  existsb (fun r => match r with Required => true | _ => false end)
          (rules member).

(** The HTTP bindings of a sample service with one method. *)
Definition sampleBindings (methodName : string) : option HttpMethod :=
  if String.eqb methodName "listWidgets"
  then Some (mkHttpMethod [mkHttpParameter "limit" "query";
                           mkHttpParameter "batch" "body";
                           mkHttpParameter "verbose" "header"])
  else None.

Definition property (n t : string) (primitive : bool) (rs : list Rule) : Member :=
  mkMember (Some KindProperty) n t primitive false rs None None.

Definition parameter (n t : string) (rs : list Rule) : Member :=
  mkMember (Some KindParameter) n t true false rs None None.

Definition variant (t : string) (primitive : bool) : Member :=
  mkMember None "" t primitive false [] None None.

(** A worklist without cycles: [User] refers to [Address] and to itself. *)
Definition addressType : Schema :=
  mkSchema "Address" (Type_ [property "street" "string" true [Required]] None []).

Definition colorEnum : Schema := mkSchema "Color" (Enum ["red"; "green"]).

Definition userType : Schema :=
  mkSchema "User"
    (Type_ [property "id" "integer" true [Required];
            property "name" "string" true [Required; StringMinLength 1];
            property "address" "address" false [Required];
            property "manager" "user" false []] None []).


(** A worklist without cycles in which a record refers to other entities
    through its map extension only: the keys of [Index] are of the enum
    [Color] and its values of the record [User]. *)
Definition indexType : Schema :=
  mkSchema "Index"
    (Type_ []
       (Some (mkMapProperties
                (mkMember (Some KindMapKey) "" "color" false false [] None None)
                (mkMember (Some KindMapValue) "" "user" false false [] None None)
                []))
       []).

Definition layeredWorklist : list Schema :=
  [indexType; userType; colorEnum; addressType].

(** A worklist with the cycle [Author] → [Book] → [Author]. *)
Definition authorType : Schema :=
  mkSchema "Author" (Type_ [property "favourite" "book" false []] None []).

Definition bookType : Schema :=
  mkSchema "Book" (Type_ [property "author" "author" false [Required]] None []).

Definition cyclicWorklist : list Schema := [bookType; colorEnum; authorType].

(** A worklist with a cycle through a union: [Shape] → [Group] → [Shape]. *)
Definition circleType : Schema :=
  mkSchema "Circle" (Type_ [property "radius" "number" true [Required]] None []).

Definition groupType : Schema :=
  mkSchema "Group" (Type_ [property "first" "shape" false [Required]] None []).

Definition shapeUnion : Schema :=
  mkSchema "Shape" (Union [variant "circle" false; variant "group" false] None).

Definition unionWorklist : list Schema := [shapeUnion; circleType; groupType].

(** A worklist with a cycle through the value of a map extension:
    [Tree] → [Branch] → [Tree]. *)
Definition branchType : Schema :=
  mkSchema "Branch" (Type_ [property "parent" "tree" false [Required]] None []).

Definition treeType : Schema :=
  mkSchema "Tree"
    (Type_ []
       (Some (mkMapProperties
                (mkMember (Some KindMapKey) "" "string" true false [] None None)
                (mkMember (Some KindMapValue) "" "branch" false false [] None None)
                []))
       []).

(** A record that refers to an entity that is not in the worklist. *)
Definition orderType : Schema :=
  mkSchema "Order" (Type_ [property "buyer" "customer" false [Required]] None []).

(** Records with properties and a map extension: one whose keys are
    strings with a pattern, one whose keys are of the complex type [Tag]. *)
Definition labelProperty : Member := property "label" "string" true [Required].

Definition patternKeyed : Schema :=
  mkSchema "Labels"
    (Type_ [labelProperty]
       (Some (mkMapProperties
                (mkMember (Some KindMapKey) "" "string" true false
                          [StringPattern "^[a-z]+$"] None None)
                (mkMember (Some KindMapValue) "" "string" true false [] None None)
                []))
       []).

Definition tagKeyed : Schema :=
  mkSchema "Tagged"
    (Type_ [labelProperty]
       (Some (mkMapProperties
                (mkMember (Some KindMapKey) "" "tag" false false [] None None)
                (mkMember (Some KindMapValue) "" "string" true false [] None None)
                []))
       []).

(** A record that refers to itself only. *)
Definition employeeType : Schema :=
  mkSchema "Employee" (Type_ [property "manager" "employee" false []] None []).

(** Members with a bound at zero and with a minimal number of items. *)
Definition offsetParameter : Member :=
  parameter "offset" "integer" [NumberGTE 0].

Definition tagsProperty : Member :=
  mkMember (Some KindProperty) "tags" "string" true true
           [Required; ArrayMinItems 1] None None.

(** Two enums whose names differ in case at the second letter. *)
Definition idEnum : Schema := mkSchema "Id" (Enum ["a"]).
Definition ipEnum : Schema := mkSchema "IP" (Enum ["b"]).

(** A method and its parameters. *)
Definition limitParameter : Member := parameter "limit" "integer" [].
Definition batchParameter : Member := parameter "batch" "integer" [].

Definition listWidgetsParams : Schema :=
  mkSchema "ListWidgetsParams"
           (Method "listWidgets" [limitParameter; batchParameter]).

(** A record with key-count rules and no map extension, and one with a map
    extension. *)
Definition settingsRules : list ObjectRule :=
  [ObjectMaxProperties 5; ObjectMinProperties 1].

Definition plainSettings : Schema :=
  mkSchema "Settings"
           (Type_ [property "theme" "string" true [Required]] None settingsRules).

Definition stringMap : MapProperties :=
  mkMapProperties (mkMember (Some KindMapKey) "" "string" true false [] None None)
                  (mkMember (Some KindMapValue) "" "string" true false [] None None)
                  [].

Definition mapSettings : Schema :=
  mkSchema "Settings" (Type_ [] (Some stringMap) settingsRules).

(** Unions of primitive variants, in both representations. *)
Definition scalarUnion : Schema :=
  mkSchema "Scalar" (Union [variant "string" true; variant "number" true] None).

Definition scalarUnionTs : SchemaFileTs.Schema :=
  SchemaFileTs.mkSchema "Scalar"
    (SchemaFileTs.PrimitiveUnion
       [SchemaFileTs.mkMemberValue SchemaFileTs.PrimitiveValue "string" false [] None;
        SchemaFileTs.mkMemberValue SchemaFileTs.PrimitiveValue "number" false [] None]).

(** A worklist of [src/schema-file.ts] with the cycle [Author] → [Book] →
    [Author]. *)
Definition complexProperty (n t : string) : SchemaFileTs.Member :=
  SchemaFileTs.mkMember SchemaFileTs.KindProperty n
    (SchemaFileTs.mkMemberValue SchemaFileTs.ComplexValue t false [Required] None).

Definition authorTypeTs : SchemaFileTs.Schema :=
  SchemaFileTs.mkSchema "Author"
    (SchemaFileTs.Type_ [complexProperty "favourite" "book"]).

Definition bookTypeTs : SchemaFileTs.Schema :=
  SchemaFileTs.mkSchema "Book"
    (SchemaFileTs.Type_ [complexProperty "author" "author"]).

Definition colorEnumTs : SchemaFileTs.Schema :=
  SchemaFileTs.mkSchema "Color" (SchemaFileTs.Enum ["red"; "green"]).

Definition cyclicWorklistTs : list SchemaFileTs.Schema :=
  [bookTypeTs; colorEnumTs; authorTypeTs].

(** A union with one complex and one primitive variant. *)
Definition nullableUser : Schema :=
  mkSchema "MaybeUser" (Union [variant "null" true; variant "user" false] None).

(** * Properties of the resolver *)

(** [unfold_def t] unfolds the constant at the head of [t]. *)
Ltac head_of t :=
  lazymatch t with
  | ?f _ => head_of f
  | _ => t
  end.

Tactic Notation "unfold_def" constr(t) :=
  let h := head_of t in unfold h.
Tactic Notation "unfold_def" constr(t) "in" hyp(H) :=
  let h := head_of t in unfold h in H.
Tactic Notation "unfold_def" constr(t) "in" "*" :=
  let h := head_of t in unfold h in *.


Section ArraySortFacts.
Context {A : Type} (cmp : A -> A -> Z).

Lemma insertSorted_Permutation x l :
  insertSorted cmp x l ≡ₚ x :: l.
Proof.
  induction l as [|y l IH]; simpl; [done|].
  destruct (cmp x y <=? 0)%Z; [done|].
  rewrite IH. apply perm_swap.
Qed.

Lemma arraySort_Permutation l : arraySort cmp l ≡ₚ l.
Proof.
  induction l as [|x l IH]; simpl; [done|].
  by rewrite insertSorted_Permutation, IH.
Qed.

Lemma arraySort_elem x l : x ∈ arraySort cmp l ↔ x ∈ l.
Proof. by rewrite arraySort_Permutation. Qed.

Lemma arraySort_nil_inv l : arraySort cmp l = [] → l = [].
Proof.
  intros H. apply Permutation_nil. by rewrite <- (arraySort_Permutation l), H.
Qed.
End ArraySortFacts.

Lemma filter_length_eq {A} (P : A → Prop) `{∀ x, Decision (P x)} (l : list A) :
  length (filter P l) = length l → filter P l = l.
Proof.
  induction l as [|x l IH]; [done|].
  rewrite filter_cons. destruct (decide (P x)); simpl; intros Hlen.
  - f_equal. apply IH. lia.
  - pose proof (length_filter P l). lia.
Qed.

Lemma filter_length_complement {A} (P : A → Prop) `{∀ x, Decision (P x)}
    (l : list A) :
  length (filter P l) + length (filter (λ x, ¬ P x) l) = length l.
Proof.
  rewrite <- length_app. apply Permutation_length, filter_app_complement.
Qed.

Section ResolverFacts.
Variable pascal : string -> string.
Variable localeCompare : string -> string -> Z.

Local Abbreviation ready := (ready pascal).
Local Abbreviation pass := (pass pascal localeCompare).
Local Abbreviation sortLoop := (sortLoop pascal localeCompare).
Local Abbreviation sortedSortable := (sortedSortable pascal localeCompare).
Local Abbreviation unsortable := (unsortable pascal).
Local Abbreviation sort := (sort pascal localeCompare).
Local Abbreviation sortWithin := (sortWithin pascal localeCompare).

(** *** One pass *)

Lemma pass_split st :
  sortedSortable st ++ unsortable st ≡ₚ unsorted st.
Proof.
  unfold_def sortedSortable; unfold_def unsortable.
  rewrite arraySort_Permutation. apply filter_app_complement.
Qed.

Lemma unsortable_length st : length (unsortable st) ≤ length (unsorted st).
Proof. apply length_filter. Qed.

(** A pass that leaves the length of the pending list unchanged has left
    the pending list unchanged and appended nothing. *)
Lemma stalled_pass st :
  length (unsortable st) = length (unsorted st) →
  unsortable st = unsorted st ∧ sortedSortable st = [].
Proof.
  intros Hlen. split.
  - by apply filter_length_eq.
  - unfold_def sortedSortable.
    pose proof (filter_length_complement (ready (sortedNames st)) (unsorted st)) as Hc.
    unfold_def unsortable in Hlen.
    destruct (filter (ready (sortedNames st)) (unsorted st)); [done|].
    simpl in Hc. lia.
Qed.

Lemma pass_inr st s c :
  pass st = inr (s, c) →
  prevUnsortedLength st = length (unsortable st)
  ∧ s = sorted st ++ sortedSortable st ∧ c = unsortable st.
Proof.
  unfold_def pass.
  destruct (Nat.eqb_spec (prevUnsortedLength st) (length (unsortable st)));
    [|done].
  by intros [= <- <-].
Qed.

Lemma pass_inl st st' :
  pass st = inl st' →
  prevUnsortedLength st ≠ length (unsortable st)
  ∧ sorted st' = sorted st ++ sortedSortable st
  ∧ unsorted st' = unsortable st
  ∧ sortedNames st' =
      sortedNames st
        ∪ list_to_set (schemaName <$> filter (ready (sortedNames st)) (unsorted st))
  ∧ prevUnsortedLength st' = length (unsorted st').
Proof.
  unfold_def pass.
  destruct (Nat.eqb_spec (prevUnsortedLength st) (length (unsortable st)));
    [done|].
  by intros [= <-].
Qed.

(** *** Termination *)

Lemma sortLoop_total fuel st :
  prevUnsortedLength st = length (unsorted st) →
  length (unsorted st) ≤ fuel →
  ∃ r, sortLoop fuel st = Some r.
Proof.
  revert st. induction fuel as [|fuel IH]; intros st Hprev Hfuel.
  - destruct (unsorted st) eqn:Hu; simpl in Hfuel; [|lia].
    simpl. rewrite Hu. eauto.
  - simpl. destruct (unsorted st) as [|x u] eqn:Hu; [eauto|].
    destruct (pass st) as [st'|r] eqn:Hpass; [|eauto].
    apply pass_inl in Hpass as (Hne & _ & Hu' & _ & Hprev').
    apply IH; [done|].
    rewrite Hu'. pose proof (unsortable_length st).
    rewrite Hu in *. simpl in *. lia.
Qed.

Lemma sortLoop_fuel_mono fuel fuel' st r :
  sortLoop fuel st = Some r → fuel ≤ fuel' → sortLoop fuel' st = Some r.
Proof.
  revert fuel' st. induction fuel as [|fuel IH]; intros fuel' st Hr Hle.
  - simpl in Hr. destruct (unsorted st) eqn:Hu; [|done].
    destruct fuel'; simpl; by rewrite Hu.
  - destruct fuel' as [|fuel']; [lia|].
    simpl in *. destruct (unsorted st); [done|].
    destruct (pass st); [|done]. apply IH; [done|lia].
Qed.

Lemma sort_total l : ∃ r, sort l = Some r.
Proof. by apply sortLoop_total. Qed.

(** *** The output is a rearrangement of the input *)

Lemma sortLoop_Permutation fuel st s c :
  sortLoop fuel st = Some (s, c) →
  s ++ c ≡ₚ sorted st ++ unsorted st.
Proof.
  revert st. induction fuel as [|fuel IH]; intros st; simpl.
  - destruct (unsorted st); [|done]. by intros [= <- <-].
  - destruct (unsorted st) as [|x u] eqn:Hu; [by intros [= <- <-]|].
    destruct (pass st) as [st'|[s' c']] eqn:Hpass.
    + intros Hr. apply IH in Hr. rewrite Hr.
      apply pass_inl in Hpass as (_ & -> & -> & _).
      rewrite <- Hu, <- (pass_split st). by rewrite (assoc_L (++)).
    + intros [= -> ->]. apply pass_inr in Hpass as (_ & -> & ->).
      rewrite <- Hu, <- (pass_split st). by rewrite (assoc_L (++)).
Qed.

(** *** Dependencies come first *)

Lemma ready_spec names e :
  ready names e = true ↔
  ∀ n, n ∈ complexMembers pascal e → n ∈ names ∨ n = schemaName e.
Proof.
  unfold_def ready. rewrite orb_true_iff, forallb_forall. split.
  - intros [Hlen|Hall] n Hn.
    + apply Nat.eqb_eq in Hlen.
      destruct (complexMembers pascal e); [|done]. by apply elem_of_nil in Hn.
    + apply list_elem_of_In, Hall in Hn.
      apply orb_true_iff in Hn as [Hn|Hn].
      * left. by apply bool_decide_eq_true in Hn.
      * right. by apply String.eqb_eq.
  - intros Hall. right. intros n Hn. apply list_elem_of_In, Hall in Hn.
    apply orb_true_iff. destruct Hn as [Hn| ->].
    + left. by apply bool_decide_eq_true.
    + right. apply String.eqb_refl.
Qed.

Lemma not_ready_blocked s names e :
  (∀ n, n ∈ names ↔ n ∈ schemaName <$> s) →
  ¬ ready names e → blocked pascal s e.
Proof.
  intros Hnames Hnot.
  destruct (decide (Forall (λ n, n ∈ names ∨ n = schemaName e)
                           (complexMembers pascal e))) as [Hall|Hex].
  - destruct Hnot. apply Is_true_true, ready_spec.
    by apply Forall_forall.
  - apply not_Forall_Exists in Hex; [|apply _].
    apply Exists_exists in Hex as (n & Hn & Hbad). simpl in Hbad.
    exists n. split_and!; [done|by intros ?; apply Hbad; right|].
    intros Hin%Hnames. apply Hbad. by left.
Qed.

Lemma sortedSortable_ready st e :
  e ∈ sortedSortable st → ready (sortedNames st) e = true.
Proof.
  unfold_def sortedSortable. rewrite arraySort_elem, list_elem_of_filter.
  intros [H _]. by apply Is_true_true.
Qed.

Lemma dependenciesFirst_app s layer names :
  (∀ n, n ∈ names ↔ n ∈ schemaName <$> s) →
  dependenciesFirst pascal s →
  (∀ e, e ∈ layer → ready names e = true) →
  dependenciesFirst pascal (s ++ layer).
Proof.
  intros Hnames Hs Hlayer j e n Hj Hn.
  apply lookup_app_Some in Hj as [Hj|[Hlen Hj]].
  - destruct (Hs j e n Hj Hn) as [?|(i & d & ? & Hi & ?)]; [by left|].
    right. exists i, d. split_and!; [done| |done].
    by apply lookup_app_l_Some.
  - apply list_elem_of_lookup_2, Hlayer in Hj.
    destruct (proj1 (ready_spec _ _) Hj n Hn) as [Hin|?]; [|by left].
    right. apply Hnames in Hin. apply list_elem_of_fmap in Hin as (d & -> & Hd).
    apply list_elem_of_lookup in Hd as [i Hi].
    exists i, d. split_and!; [|by apply lookup_app_l_Some|done].
    apply lookup_lt_Some in Hi. lia.
Qed.

Lemma loopInvariant_initial l : loopInvariant pascal (initialState l).
Proof.
  split_and!; simpl; [|by intros j e n Hj; rewrite lookup_nil in Hj|done].
  intros n. set_solver.
Qed.

Lemma loopInvariant_pass st st' :
  loopInvariant pascal st → pass st = inl st' → loopInvariant pascal st'.
Proof.
  intros (Hnames & Hdeps & _) Hpass.
  apply pass_inl in Hpass as (_ & Hs & _ & Hn & Hprev).
  split_and!; [|rewrite Hs|done].
  - intros n. rewrite Hn, Hs, fmap_app, elem_of_union, elem_of_app, Hnames.
    unfold_def sortedSortable.
    by rewrite elem_of_list_to_set, arraySort_Permutation.
  - eapply dependenciesFirst_app; [done..|]. apply sortedSortable_ready.
Qed.

(** What [sort] returns from a state that satisfies the invariant: the
    sorted list has its dependencies first, and every entity returned as
    circular is blocked. *)
Lemma sortLoop_result fuel st s c :
  loopInvariant pascal st →
  sortLoop fuel st = Some (s, c) →
  dependenciesFirst pascal s ∧ ∀ e, e ∈ c → blocked pascal s e.
Proof.
  revert st. induction fuel as [|fuel IH]; intros st Hinv; simpl.
  - destruct (unsorted st); [|done]. intros [= <- <-].
    split; [apply Hinv|]. by intros e He%elem_of_nil.
  - destruct (unsorted st) as [|x u] eqn:Hu.
    { intros [= <- <-]. split; [apply Hinv|]. by intros e He%elem_of_nil. }
    destruct (pass st) as [st'|[s' c']] eqn:Hpass.
    + apply IH. by eapply loopInvariant_pass.
    + intros [= -> ->]. apply pass_inr in Hpass as (Hlen & -> & ->).
      destruct Hinv as (Hnames & Hdeps & Hprev).
      rewrite Hprev in Hlen. symmetry in Hlen.
      apply stalled_pass in Hlen as [Hsame Hnone].
      rewrite Hnone, app_nil_r. split; [done|].
      intros e He. unfold_def unsortable in He.
      apply list_elem_of_filter in He as [He _].
      by eapply not_ready_blocked.
Qed.

Lemma sort_result l s c :
  sort l = Some (s, c) →
  s ++ c ≡ₚ l ∧ dependenciesFirst pascal s ∧ ∀ e, e ∈ c → blocked pascal s e.
Proof.
  intros Hsort. split.
  - by apply sortLoop_Permutation in Hsort.
  - eapply sortLoop_result; [apply loopInvariant_initial|done].
Qed.

Lemma uniqueNames_inj l x y :
  uniqueNames l → x ∈ l → y ∈ l → schemaName x = schemaName y → x = y.
Proof.
  unfold uniqueNames. induction l as [|z l IH]; [by intros _ ?%elem_of_nil|].
  rewrite fmap_cons, NoDup_cons.
  intros [Hz Hl] [->|Hx]%elem_of_cons [->|Hy]%elem_of_cons Heq; auto.
  - destruct Hz. rewrite Heq. by apply list_elem_of_fmap_2.
  - destruct Hz. rewrite <- Heq. by apply list_elem_of_fmap_2.
Qed.

Lemma uniqueNames_NoDup l : uniqueNames l → NoDup l.
Proof. apply NoDup_fmap_1. Qed.

(** In a list with its dependencies first, an entity comes after the
    entity it refers to. *)
Lemma dependenciesFirst_precedes l s a b :
  uniqueNames l → s ⊆ l → dependenciesFirst pascal s →
  a ∈ s → refersTo pascal l a b → precedes s b a.
Proof.
  intros Huniq Hsub Hdeps Ha (_ & Hb & Hn & Hne).
  apply list_elem_of_lookup in Ha as [j Hj].
  destruct (Hdeps j a _ Hj Hn) as [?|(i & d & Hlt & Hi & Hd)]; [done|].
  assert (d = b) as ->.
  { eapply uniqueNames_inj; [done| |done..].
    by eapply Hsub, list_elem_of_lookup_2. }
  by exists i, j.
Qed.

Lemma precedes_asym s x y :
  NoDup s → precedes s x y → precedes s y x → False.
Proof.
  intros Hnd (i & j & Hij & Hi & Hj) (i' & j' & Hij' & Hi' & Hj').
  pose proof (NoDup_lookup _ _ _ _ Hnd Hi Hj').
  pose proof (NoDup_lookup _ _ _ _ Hnd Hj Hi'). lia.
Qed.

(** *** Progress in the absence of cycles *)

Lemma tc_refersTo_elem l a b : tc (refersTo pascal l) a b → b ∈ l.
Proof. induction 1 as [?? H|]; [apply H|done]. Qed.

Lemma acyclic_sn l a : acyclic pascal l → sn (refersTo pascal l) a.
Proof.
  intros Hacyc. apply tc_finite_sn.
  - intros x. apply Hacyc.
  - exists l. intros b. apply tc_refersTo_elem.
Qed.

(** In an acyclic worklist no non-empty set of entities is such that each
    of them refers to another one of the set. *)
Lemma acyclic_no_closed_set l (c : list Schema) e :
  acyclic pascal l →
  (∀ x, x ∈ c → ∃ y, y ∈ c ∧ refersTo pascal l x y) →
  e ∈ c → False.
Proof.
  intros Hacyc Hnext. induction (acyclic_sn l e Hacyc) as [e _ IH].
  intros He. destruct (Hnext e He) as (y & Hy & Hey).
  by apply (IH y).
Qed.

Lemma blocked_refersTo l s c e :
  resolved pascal l → s ++ c ≡ₚ l → e ∈ c → blocked pascal s e →
  ∃ y, y ∈ c ∧ refersTo pascal l e y.
Proof.
  intros Hres Hperm He (n & Hn & Hne & Hnot).
  assert (e ∈ l) as Hel by (rewrite <- Hperm; set_solver).
  destruct (Hres e n Hel Hn) as (b & Hb & <-).
  exists b. split; [|done].
  rewrite <- Hperm in Hb. apply elem_of_app in Hb as [Hb|Hb]; [|done].
  destruct Hnot. by apply list_elem_of_fmap_2.
Qed.
End ResolverFacts.

(** *** [arraySort] with a consistent comparator *)
Section ArraySortOrdered.
Context {A : Type} (cmp : A -> A -> Z).
Hypothesis cmp_total : ∀ a b, (cmp a b ≤ 0 ∨ cmp b a ≤ 0)%Z.
Hypothesis cmp_trans : ∀ a b c, (cmp a b ≤ 0 → cmp b c ≤ 0 → cmp a c ≤ 0)%Z.

Local Abbreviation ascending := (ascending cmp).

Lemma insertSorted_sorted x l :
  StronglySorted ascending l → StronglySorted ascending (insertSorted cmp x l).
Proof using cmp_total cmp_trans.
  induction 1 as [|y l Hl IH Hy]; simpl.
  - repeat constructor.
  - destruct (Z.leb_spec (cmp x y) 0) as [Hxy|Hxy].
    + constructor; [by constructor|]. constructor; [done|].
      eapply Forall_impl; [exact Hy|]. intros z Hz. by eapply cmp_trans.
    + constructor; [done|].
      rewrite insertSorted_Permutation. constructor; [|done].
      destruct (cmp_total x y); [lia|done].
Qed.

Lemma arraySort_sorted l : StronglySorted ascending (arraySort cmp l).
Proof using cmp_total cmp_trans.
  induction l; simpl; [constructor|by apply insertSorted_sorted].
Qed.

(** Two ascending arrangements of the same elements are equal when no two
    different elements tie. *)
Lemma ascending_unique l1 l2 :
  (∀ a b, a ∈ l1 → b ∈ l1 → ascending a b → ascending b a → a = b) →
  StronglySorted ascending l1 → StronglySorted ascending l2 →
  l1 ≡ₚ l2 → l1 = l2.
Proof.
  intros Hties Hs1. revert l2 Hties.
  induction Hs1 as [|x l1 Hs1 IH Hx]; intros l2 Hties Hs2 Hperm.
  - by apply Permutation_nil in Hperm.
  - destruct Hs2 as [|y l2 Hs2 Hy].
    { symmetry in Hperm. by apply Permutation_nil in Hperm. }
    assert (x = y) as ->.
    { assert (x ∈ y :: l2) as Hxin by (rewrite <- Hperm; left).
      assert (y ∈ x :: l1) as Hyin by (rewrite Hperm; left).
      apply elem_of_cons in Hxin as [?|Hxin]; [done|].
      apply elem_of_cons in Hyin as [?|Hyin]; [done|].
      rewrite Forall_forall in Hx, Hy.
      apply Hties; [left|by right|by apply Hx|by apply Hy]. }
    f_equal. apply IH; [|done|by apply Permutation_cons_inv in Hperm].
    intros a b Ha Hb. apply Hties; by right.
Qed.

Lemma arraySort_Permutation_eq l1 l2 :
  (∀ a b, a ∈ l1 → b ∈ l1 → ascending a b → ascending b a → a = b) →
  l1 ≡ₚ l2 → arraySort cmp l1 = arraySort cmp l2.
Proof using cmp_total cmp_trans.
  intros Hties Hperm. apply ascending_unique; [|apply arraySort_sorted..|].
  - intros a b. rewrite !arraySort_elem. apply Hties.
  - by rewrite !arraySort_Permutation.
Qed.
End ArraySortOrdered.

(** *** The layers and their order *)
Section ResolverOrder.
Variable pascal : string -> string.
Variable localeCompare : string -> string -> Z.
Hypothesis localeCompare_total :
  ∀ a b, (localeCompare a b ≤ 0 ∨ localeCompare b a ≤ 0)%Z.
Hypothesis localeCompare_trans :
  ∀ a b c, (localeCompare a b ≤ 0 → localeCompare b c ≤ 0 →
            localeCompare a c ≤ 0)%Z.

Local Abbreviation ready := (ready pascal).
Local Abbreviation pass := (pass pascal localeCompare).
Local Abbreviation sortLoop := (sortLoop pascal localeCompare).
Local Abbreviation sortLayers := (sortLayers pascal localeCompare).
Local Abbreviation sortedSortable := (sortedSortable pascal localeCompare).
Local Abbreviation unsortable := (unsortable pascal).
Local Abbreviation compareSchemas := (compareSchemas localeCompare).
Local Abbreviation noTies := (noTies localeCompare).

Lemma compareSchemas_total a b :
  (compareSchemas a b ≤ 0 ∨ compareSchemas b a ≤ 0)%Z.
Proof using localeCompare_total. apply localeCompare_total. Qed.

Lemma compareSchemas_trans a b c :
  (compareSchemas a b ≤ 0 → compareSchemas b c ≤ 0 → compareSchemas a c ≤ 0)%Z.
Proof using localeCompare_trans. apply localeCompare_trans. Qed.

Lemma sortLoop_nil fuel st :
  unsorted st = [] → sortLoop fuel st = Some (sorted st, []).
Proof. intros Hu. destruct fuel; simpl; by rewrite Hu. Qed.

Lemma sortLoop_S fuel st :
  unsorted st ≠ [] →
  sortLoop (S fuel) st =
    match pass st with
    | inr result => Some result
    | inl st' => sortLoop fuel st'
    end.
Proof. intros Hu. simpl. by destruct (unsorted st). Qed.

Lemma sortLayers_S fuel st :
  unsorted st ≠ [] →
  sortLayers (S fuel) st =
    sortedSortable st ::
    match pass st with
    | inr _ => []
    | inl st' => sortLayers fuel st'
    end.
Proof. intros Hu. simpl. by destruct (unsorted st). Qed.

(** The sorted list is the concatenation of the layers. *)
Lemma sortLoop_layers fuel st s c :
  sortLoop fuel st = Some (s, c) →
  s = sorted st ++ concat (sortLayers fuel st).
Proof.
  revert st. induction fuel as [|fuel IH]; intros st; simpl.
  - destruct (unsorted st); [|done]. intros [= <- <-]. by rewrite app_nil_r.
  - destruct (unsorted st) as [|x u] eqn:Hu.
    { intros [= <- <-]. by rewrite app_nil_r. }
    destruct (pass st) as [st'|[s' c']] eqn:Hpass.
    + intros Hr. rewrite (IH _ Hr).
      apply pass_inl in Hpass as (_ & -> & _). simpl.
      by rewrite (assoc_L (++)).
    + intros [= -> ->]. apply pass_inr in Hpass as (_ & -> & _).
      simpl. by rewrite app_nil_r.
Qed.

(** Every layer is in ascending order of the comparator. *)
Lemma sortLayers_sorted fuel st :
  Forall (StronglySorted (ascending compareSchemas)) (sortLayers fuel st).
Proof using localeCompare_total localeCompare_trans.
  revert st. induction fuel as [|fuel IH]; intros st; simpl.
  - destruct (unsorted st); constructor.
  - destruct (unsorted st); [constructor|].
    constructor.
    + apply arraySort_sorted;
        [apply compareSchemas_total|apply compareSchemas_trans].
    + destruct (pass st); [apply IH|constructor].
Qed.

Lemma noTies_filter (P : Schema → Prop) `{∀ x, Decision (P x)} l :
  noTies l → noTies (filter P l).
Proof.
  intros Hl a b [_ Ha]%list_elem_of_filter [_ Hb]%list_elem_of_filter.
  by apply Hl.
Qed.

Lemma pass_Permutation st1 st2 :
  sortedNames st1 = sortedNames st2 →
  unsorted st1 ≡ₚ unsorted st2 →
  noTies (unsorted st1) →
  sortedSortable st1 = sortedSortable st2
  ∧ unsortable st1 ≡ₚ unsortable st2
  ∧ filter (ready (sortedNames st1)) (unsorted st1)
      ≡ₚ filter (ready (sortedNames st2)) (unsorted st2).
Proof using localeCompare_total localeCompare_trans.
  intros Hn Hu Hties.
  unfold_def sortedSortable; unfold_def unsortable. rewrite <- Hn.
  split_and!; [|by rewrite Hu..].
  apply arraySort_Permutation_eq;
    [apply compareSchemas_total|apply compareSchemas_trans| |by rewrite Hu].
  by apply noTies_filter.
Qed.

(** The sorted list and its layers do not depend on the order of the
    pending list. *)
Lemma sortLoop_Permutation_indep fuel st1 st2 s c1 :
  sorted st1 = sorted st2 →
  sortedNames st1 = sortedNames st2 →
  prevUnsortedLength st1 = prevUnsortedLength st2 →
  unsorted st1 ≡ₚ unsorted st2 →
  noTies (unsorted st1) →
  sortLoop fuel st1 = Some (s, c1) →
  sortLayers fuel st1 = sortLayers fuel st2
  ∧ ∃ c2, sortLoop fuel st2 = Some (s, c2) ∧ c1 ≡ₚ c2.
Proof using localeCompare_total localeCompare_trans.
  revert st1 st2. induction fuel as [|fuel IH];
    intros st1 st2 Hs Hn Hp Hu Hties Hr.
  - simpl in *. destruct (unsorted st1) eqn:Hu1; [|done].
    apply Permutation_nil in Hu. rewrite Hu.
    injection Hr as <- <-. split; [done|]. exists []. by rewrite Hs.
  - destruct (decide (unsorted st1 = [])) as [Hu1|Hu1].
    { rewrite Hu1 in Hu. apply Permutation_nil in Hu.
      rewrite sortLoop_nil in Hr |- * by done.
      injection Hr as <- <-. simpl. rewrite Hu1, Hu, Hs.
      split; [done|]. by exists []. }
    assert (unsorted st2 ≠ []) as Hu2.
    { intros Hnil. rewrite Hnil in Hu. symmetry in Hu.
      by apply Permutation_nil in Hu. }
    rewrite sortLoop_S in Hr |- * by done. rewrite !sortLayers_S by done.
    destruct (pass_Permutation st1 st2 Hn Hu Hties) as (Hlayer & Hrest & Hrdy).
    unfold_def pass in *. rewrite <- Hlayer, <- Hp, <- Hs, <- Hn.
    rewrite <- (Permutation_length Hrest).
    destruct (prevUnsortedLength st1 =? length (unsortable st1)).
    + injection Hr as <- <-. split; [done|]. by eexists.
    + match goal with
      | |- context [sortLoop fuel ?st2'] =>
          apply (IH _ st2') in Hr as [Hl Hc]
      end; simpl; try done.
      * by rewrite Hl.
      * f_equal. apply list_to_set_perm_L. by rewrite Hu.
      * by apply noTies_filter.
Qed.
End ResolverOrder.

(** *** Checking the hypotheses on a given worklist *)
Section ResolverChecks.
Variable pascal : string -> string.

Lemma resolvedb_correct l : resolvedb pascal l = true → resolved pascal l.
Proof.
  unfold resolvedb. rewrite forallb_forall. intros Hall a n Ha Hn.
  apply list_elem_of_In, Hall in Ha. rewrite forallb_forall in Ha.
  apply list_elem_of_In, Ha, existsb_exists in Hn as (b & Hb & Heq).
  exists b. split; [by apply list_elem_of_In|by apply String.eqb_eq].
Qed.

Lemma respectsRank_refersTo rank l a b :
  respectsRank pascal rank l = true → refersTo pascal l a b → rank b < rank a.
Proof.
  unfold respectsRank. rewrite forallb_forall.
  intros Hall (Ha & Hb & Hn & Hne).
  apply list_elem_of_In, Hall in Ha. rewrite forallb_forall in Ha.
  apply list_elem_of_In, Ha in Hb.
  apply orb_true_iff in Hb as [Hb|Hb]; [|by apply Nat.ltb_lt].
  apply orb_true_iff in Hb as [Hb|Hb].
  - apply negb_true_iff, not_true_iff_false in Hb. destruct Hb.
    apply existsb_exists. exists (schemaName b).
    split; [by apply list_elem_of_In|apply String.eqb_refl].
  - by apply String.eqb_eq in Hb.
Qed.

Lemma acyclic_of_rank rank l :
  respectsRank pascal rank l = true → acyclic pascal l.
Proof.
  intros Hrank a Hcycle.
  assert (∀ x y, tc (refersTo pascal l) x y → rank y < rank x) as Hlt.
  { induction 1 as [x y H|x y w H _ IH].
    - by eapply respectsRank_refersTo.
    - apply (respectsRank_refersTo _ _ _ _ Hrank) in H. lia. }
  apply Hlt in Hcycle. lia.
Qed.
End ResolverChecks.

(** *** The sample collation is a consistent comparator *)

Lemma string_compare_refl s : String_as_OT.compare s s = Eq.
Proof.
  destruct (String_as_OT.compare_spec s s) as [_|H|H]; [done|..];
    by apply (irreflexivity String_as_OT.lt) in H.
Qed.

Lemma string_compare_antisym a b :
  String_as_OT.compare b a = CompOpp (String_as_OT.compare a b).
Proof.
  destruct (String_as_OT.compare_spec a b) as [->|H|H]; simpl.
  - apply string_compare_refl.
  - destruct (String_as_OT.compare_spec b a) as [->|H'|H']; [|..|done].
    + by apply (irreflexivity String_as_OT.lt) in H.
    + destruct (irreflexivity String_as_OT.lt a). by etransitivity.
  - exact H.
Qed.

Lemma string_compare_le_trans a b c :
  String_as_OT.compare a b ≠ Gt → String_as_OT.compare b c ≠ Gt →
  String_as_OT.compare a c ≠ Gt.
Proof.
  destruct (String_as_OT.compare_spec a b) as [->|Hab|Hab]; [done| |done].
  destruct (String_as_OT.compare_spec b c) as [<-|Hbc|Hbc]; [| |done].
  - intros _ _. unfold String_as_OT.lt in Hab. by rewrite Hab.
  - intros _ _. assert (String_as_OT.lt a c) as Hac by by etransitivity.
    unfold String_as_OT.lt in Hac. by rewrite Hac.
Qed.

Lemma localeCompareAscii_le a b :
  (localeCompareAscii a b ≤ 0)%Z ↔
  String_as_OT.compare (foldCase a) (foldCase b) = Lt
  ∨ (foldCase a = foldCase b ∧ String_as_OT.compare b a ≠ Gt).
Proof.
  unfold localeCompareAscii.
  destruct (String_as_OT.compare_spec (foldCase a) (foldCase b)) as [Heq|Hlt|Hgt].
  - unfold String_as_OT.eq in Heq.
    destruct (String_as_OT.compare b a); simpl; split; try lia; try tauto.
    + intros _. right. by split.
    + intros _. right. by split.
    + intros [?|[_ ?]]; done.
  - simpl. split; [by left|lia].
  - simpl. split; [lia|]. intros [?|[Heq _]]; [done|].
    rewrite Heq in Hgt. by apply (irreflexivity String_as_OT.lt) in Hgt.
Qed.

Lemma localeCompareAscii_total a b :
  (localeCompareAscii a b ≤ 0 ∨ localeCompareAscii b a ≤ 0)%Z.
Proof.
  rewrite !localeCompareAscii_le.
  rewrite (string_compare_antisym (foldCase a) (foldCase b)).
  rewrite (string_compare_antisym b a).
  destruct (String_as_OT.compare_spec (foldCase a) (foldCase b)) as [Heq|Hlt|Hgt];
    simpl; [|by left; left|by right; left].
  unfold String_as_OT.eq in Heq.
  destruct (String_as_OT.compare b a); simpl.
  - left. right. by split.
  - left. right. by split.
  - right. right. by split.
Qed.

Lemma localeCompareAscii_trans a b c :
  (localeCompareAscii a b ≤ 0 → localeCompareAscii b c ≤ 0 →
   localeCompareAscii a c ≤ 0)%Z.
Proof.
  rewrite !localeCompareAscii_le.
  intros [Hab|[Hab Hab']] [Hbc|[Hbc Hbc']].
  - left. change (String_as_OT.lt (foldCase a) (foldCase c)). by etransitivity.
  - left. by rewrite <- Hbc.
  - left. by rewrite Hab.
  - right. split; [congruence|]. by eapply string_compare_le_trans.
Qed.

(** * The resolver reads every reference of an entity *)
Section ResolverReferences.
Variable pascal : string -> string.

Lemma complexNames_app (ms ns : list Member) :
  complexNames pascal (ms ++ ns)
  = complexNames pascal ms ++ complexNames pascal ns.
Proof.
  unfold complexNames. by rewrite List.filter_app, map_app.
Qed.

Lemma mapMember_complexNames (m : Member) :
  mapMember pascal (Some m) = complexNames pascal [m].
Proof.
  unfold complexNames. simpl. by destruct (isPrimitive m).
Qed.

(** The names the resolver waits for are the type names of the
    non-primitive members of the entity, all of them and in the order of
    [entityMembers]: none of the properties, map key, map value,
    parameters or variants is left out. *)
Lemma complexMembers_entityMembers (schema : Schema) :
  complexMembers pascal schema
  = complexNames pascal (entityMembers schema).
Proof.
  unfold complexMembers, entityMembers.
  destruct (element schema) as [properties [mp|] rules| |members d|];
    try done.
  - rewrite complexNames_app. f_equal.
    change [key mp; value mp] with ([key mp] ++ [value mp]).
    rewrite complexNames_app. cbn [fmap option_fmap option_map].
    by rewrite !mapMember_complexNames.
  - cbn [fmap option_fmap option_map mapMember].
    by rewrite !app_nil_r.
Qed.

Lemma complexNames_spec (ms : list Member) (n : string) :
  n ∈ complexNames pascal ms
  ↔ ∃ m, m ∈ ms ∧ isPrimitive m = false ∧ n = pascal (typeName m).
Proof.
  unfold complexNames. rewrite list_elem_of_In, in_map_iff. split.
  - intros (m & <- & Hm). apply filter_In in Hm as [Hm Hp].
    exists m. rewrite list_elem_of_In. split_and!; [done| |done].
    by destruct (isPrimitive m).
  - intros (m & Hm & Hp & ->). exists m. split; [done|].
    apply filter_In. rewrite <- list_elem_of_In. by rewrite Hp.
Qed.

Lemma complexMembers_references (schema : Schema) (n : string) :
  n ∈ complexMembers pascal schema ↔ references pascal schema n.
Proof.
  rewrite complexMembers_entityMembers. apply complexNames_spec.
Qed.

Lemma refersTo_refersToEntity (l : list Schema) (a b : Schema) :
  refersTo pascal l a b ↔ refersToEntity pascal l a b.
Proof.
  unfold refersTo, refersToEntity.
  by rewrite complexMembers_references.
Qed.

Lemma resolved_referencesResolved (l : list Schema) :
  resolved pascal l ↔ referencesResolved pascal l.
Proof.
  unfold resolved, referencesResolved. split; intros H a n Ha Hn.
  - apply (H a n Ha). by apply complexMembers_references.
  - apply (H a n Ha). by apply complexMembers_references.
Qed.

Lemma tc_refersTo_refersToEntity (l : list Schema) (a b : Schema) :
  tc (refersTo pascal l) a b ↔ tc (refersToEntity pascal l) a b.
Proof.
  split; intros Hc.
  - induction Hc as [x y Hxy|x y z' Hxy _ IH].
    + apply tc_once. by apply refersTo_refersToEntity.
    + eapply tc_l; [|exact IH]. by apply refersTo_refersToEntity.
  - induction Hc as [x y Hxy|x y z' Hxy _ IH].
    + apply tc_once. by apply refersTo_refersToEntity.
    + eapply tc_l; [|exact IH]. by apply refersTo_refersToEntity.
Qed.

Lemma acyclic_acyclicReferences (l : list Schema) :
  acyclic pascal l ↔ acyclicReferences pascal l.
Proof.
  unfold acyclic, acyclicReferences.
  split; intros H a Hc; apply (H a); by apply tc_refersTo_refersToEntity.
Qed.
End ResolverReferences.

(** * The claims about the resolver *)
Section ResolverClaims.
Variable pascal : string -> string.
Variable localeCompare : string -> string -> Z.

Local Abbreviation pass := (pass pascal localeCompare).
Local Abbreviation sort := (sort pascal localeCompare).
Local Abbreviation sortWithin := (sortWithin pascal localeCompare).
Local Abbreviation sortLayers := (sortLayers pascal localeCompare).
Local Abbreviation sortedSortable := (sortedSortable pascal localeCompare).
Local Abbreviation unsortable := (unsortable pascal).

(** C10. For every worklist, with or without reference cycles, [sort]
    returns, and its sorted list followed by its circular list is a
    permutation of the worklist: every entity is in one of the two lists
    as often as it is in the input, none is added and none is lost. *)
Theorem sort_partitions_worklist (l : list Schema) :
  ∃ sortedSchemas circ,
    sort l = Some (sortedSchemas, circ) ∧ sortedSchemas ++ circ ≡ₚ l.
Proof.
  destruct (sort_total pascal localeCompare l) as [[s c] Hsort].
  exists s, c. split; [done|].
  by apply sortLoop_Permutation in Hsort.
Qed.

(** C4. For a worklist of n entities [sort] returns within n passes of
    its loop (more passes allowed change nothing), and a pass started at
    the head of the loop either finds no entity ready, and then returns
    the sorted list unchanged with the whole pending list as circular, or
    goes on with a strictly shorter pending list. *)
Theorem sort_terminates_within_length_passes (l : list Schema)
    (st : LoopState) :
  (∃ result, sortWithin (length l) l = Some result)
  ∧ (∀ fuel, length l ≤ fuel → sortWithin fuel l = sortWithin (length l) l)
  ∧ (prevUnsortedLength st = length (unsorted st) →
     pass st = inr (sorted st, unsorted st)
     ∨ ∃ st', pass st = inl st'
              ∧ length (unsorted st') < length (unsorted st)
              ∧ prevUnsortedLength st' = length (unsorted st')).
Proof.
  split_and!.
  - apply sort_total.
  - intros fuel Hfuel.
    destruct (sort_total pascal localeCompare l) as [r Hr].
    unfold_def sort in Hr. rewrite Hr.
    by eapply sortLoop_fuel_mono.
  - intros Hprev. unfold_def pass. rewrite Hprev.
    destruct (Nat.eqb_spec (length (unsorted st)) (length (unsortable st)))
      as [Heq|Hne].
    + left. symmetry in Heq.
      apply (stalled_pass pascal localeCompare) in Heq as [-> ->].
      by rewrite app_nil_r.
    + right. eexists. split; [done|]. simpl. split; [|done].
      pose proof (unsortable_length pascal st). lia.
Qed.

(** C1. For every worklist that satisfies the invariants of the data model
    (names are unique, every non-primitive member has the type of an
    entity of the worklist) and in which no entity reaches itself along
    the references of its members (declared properties, map key, map
    value, parameters, union variants; self-references apart), [sort]
    returns an empty circular list and a sorted list that is a
    permutation of the worklist in which every entity comes after each
    entity that one of its non-primitive members refers to. *)
Theorem sort_orders_acyclic_worklist (l : list Schema) :
  uniqueNames l → referencesResolved pascal l → acyclicReferences pascal l →
  ∃ sortedSchemas,
    sort l = Some (sortedSchemas, [])
    ∧ sortedSchemas ≡ₚ l
    ∧ ∀ a b, refersToEntity pascal l a b → precedes sortedSchemas b a.
Proof.
  intros Huniq Hres Hacyc.
  apply resolved_referencesResolved in Hres.
  apply acyclic_acyclicReferences in Hacyc.
  destruct (sort_total pascal localeCompare l) as [[s c] Hsort].
  destruct (sort_result _ _ _ _ _ Hsort) as (Hperm & Hdeps & Hblocked).
  assert (c = []) as ->.
  { destruct c as [|e c]; [done|]. exfalso.
    eapply (acyclic_no_closed_set pascal l (e :: c) e Hacyc); [|left].
    intros x Hx. eapply blocked_refersTo; eauto. }
  rewrite app_nil_r in Hperm. exists s. split_and!; [done..|].
  intros a b Hab. apply refersTo_refersToEntity in Hab.
  eapply dependenciesFirst_precedes; [done| |done| |done].
  - intros x. by rewrite Hperm.
  - rewrite Hperm. apply Hab.
Qed.

(** C3 (amended). When [localeCompare] is a consistent comparator, then
    for every worklist the sorted list is the concatenation of the layers
    of the passes and the entities of each layer are in ascending order
    of [localeCompare] on their names; if moreover no two different
    entities of the worklist tie under [localeCompare], the layers and
    the sorted list are the same for every rearrangement of the
    worklist. *)
Theorem layers_ascending_by_localeCompare (l : list Schema) :
  (∀ a b, (localeCompare a b ≤ 0 ∨ localeCompare b a ≤ 0)%Z) →
  (∀ a b c, (localeCompare a b ≤ 0 → localeCompare b c ≤ 0 →
             localeCompare a c ≤ 0)%Z) →
  ∃ sortedSchemas circ,
    sort l = Some (sortedSchemas, circ)
    ∧ sortedSchemas = concat (sortLayers (length l) (initialState l))
    ∧ Forall (StronglySorted (ascending (compareSchemas localeCompare)))
             (sortLayers (length l) (initialState l))
    ∧ (noTies localeCompare l →
       ∀ l', l ≡ₚ l' →
         ∃ circ',
           sort l' = Some (sortedSchemas, circ')
           ∧ sortLayers (length l') (initialState l')
             = sortLayers (length l) (initialState l)
           ∧ circ ≡ₚ circ').
Proof.
  intros Htotal Htrans.
  destruct (sort_total pascal localeCompare l) as [[s c] Hsort].
  pose proof (sortLoop_layers _ _ _ _ _ _ Hsort) as Hlayers.
  exists s, c. split_and!; try done.
  - by apply sortLayers_sorted.
  - intros Hties l' Hperm.
    destruct (sortLoop_Permutation_indep pascal localeCompare Htotal Htrans
                (length l) (initialState l) (initialState l') s c)
      as (Hsame & c' & Hsort' & Hc); try done.
    { simpl. by rewrite Hperm. }
    exists c'. split_and!; try done.
    + unfold_def sort; unfold_def sortWithin.
      by rewrite <- (Permutation_length Hperm).
    + by rewrite <- (Permutation_length Hperm).
Qed.
End ResolverClaims.

(** * Properties of the member mapper and of the synthesizer *)

Lemma string_length_app (a b : string) :
  String.length (a +:+ b) = String.length a + String.length b.
Proof. induction a as [|c a IH]; simpl; [done|by rewrite IH]. Qed.

Lemma string_app_assoc (a b c : string) :
  (a +:+ b) +:+ c = a +:+ (b +:+ c).
Proof.
  induction a as [|x a IH]; [done|].
  change (String x ((a +:+ b) +:+ c) = String x (a +:+ (b +:+ c))).
  by f_equal.
Qed.

Lemma min_op_is_not_min_1 (n : Z) :
  n ≠ 1%Z → "min(" +:+ pretty n +:+ ")" ≠ "min(1)".
Proof.
  intros Hn Heq. apply Hn, (inj pretty).
  change (pretty 1%Z) with "1". simpl in Heq. injection Heq as Heq.
  destruct (pretty n) as [|a [|b s]]; simpl in Heq; [done|by injection Heq as ->|].
  injection Heq as _ _ Heq. by destruct s.
Qed.

Section SynthesizerFacts.
Variable camel : string -> string.
Variable pascal : string -> string.
Variable z : string.
Variable isRequired : Member -> bool.
Variable getHttpMethodByName : string -> option HttpMethod.

Local Abbreviation shouldCoerce := (shouldCoerce camel getHttpMethodByName).
Local Abbreviation memberOps :=
  (memberOps camel pascal z isRequired getHttpMethodByName).
Local Abbreviation primitiveOps :=
  (primitiveOps camel z getHttpMethodByName).
Local Abbreviation buildMemberSchema :=
  (buildMemberSchema camel pascal z isRequired getHttpMethodByName).
Local Abbreviation buildMember :=
  (buildMember camel pascal z isRequired getHttpMethodByName).
Local Abbreviation buildSchema :=
  (buildSchema camel pascal z isRequired getHttpMethodByName).
Local Abbreviation bound :=
  (boundToHeaderQueryOrPath camel getHttpMethodByName).

(** [shouldCoerce] decides [boundToHeaderQueryOrPath]. *)
Lemma shouldCoerce_spec member parent :
  shouldCoerce member parent = true ↔ bound member parent.
Proof using Type.
  unfold_def shouldCoerce; unfold boundToHeaderQueryOrPath. split.
  - destruct (kind member) as [[]|]; try done.
    destruct (element parent) as [| methodName parameters | |] eqn:He;
      try done.
    destruct (getHttpMethodByName methodName) as [httpMethod|] eqn:Hm;
      [|done].
    destruct (List.find _ _) as [httpParam|] eqn:Hp; [|done].
    rewrite !orb_true_iff, !String.eqb_eq. intros Hloc.
    split; [done|]. exists methodName, parameters, httpMethod, httpParam.
    split_and!; [done..|]. destruct Hloc as [[?|?]|?]; auto.
  - intros (-> & methodName & parameters & httpMethod & httpParam
            & -> & -> & -> & Hloc).
    rewrite !orb_true_iff, !String.eqb_eq.
    destruct Hloc as [?|[?|?]]; auto.
Qed.

Lemma shouldCoerce_false member parent :
  ¬ bound member parent → shouldCoerce member parent = false.
Proof using Type.
  intros Hnot. apply not_true_iff_false. by rewrite shouldCoerce_spec.
Qed.

Lemma isNumericName_cases t :
  isNumericName t = true →
  t = "number" ∨ t = "integer" ∨ t = "long" ∨ t = "float" ∨ t = "double".
Proof using Type.
  unfold isNumericName. rewrite !orb_true_iff, !String.eqb_eq.
  intros [[[[?|?]|?]|?]|?]; auto.
Qed.

Lemma primitiveOps_numeric member parent :
  isNumericName (typeName member) = true →
  primitiveOps member parent = numberOps camel z getHttpMethodByName member parent.
Proof.
  intros Hnum. unfold_def primitiveOps. rewrite Hnum.
  by destruct (isNumericName_cases _ Hnum) as [->|[->|[->|[->| ->]]]].
Qed.

Lemma primitiveOps_boolean member parent :
  typeName member = "boolean" →
  primitiveOps member parent = booleanOps camel z getHttpMethodByName member parent.
Proof. intros Ht. unfold_def primitiveOps. by rewrite Ht. Qed.

Lemma primitiveOps_string member parent :
  typeName member = "string" →
  primitiveOps member parent = stringOps z member.
Proof. intros Ht. unfold_def primitiveOps. by rewrite Ht. Qed.

(** A reference to an entity of the circular list is lazy when the
    lazy test, which compares names in camel case, finds the entity under
    the type name of the member. *)
Lemma isLazy_circular member parent prevent circ t :
  t ∈ circ → schemaName t = pascal (typeName member) →
  camel (pascal (typeName member)) = camel (typeName member) →
  isLazy camel member parent (mkOptions prevent circ) = true.
Proof.
  intros Ht Hname Hcase. unfold isLazy. apply orb_true_iff. right.
  apply existsb_exists. exists t. split; [by apply list_elem_of_In|].
  simpl. apply String.eqb_eq. by rewrite Hname, Hcase.
Qed.

(** The line of a declared member is one of the lines of its entity. *)
Lemma buildMember_in_buildSchema x m circ line :
  declaredMember x m → line ∈ buildMember m x circ →
  line ∈ buildSchema x circ.
Proof.
  unfold declaredMember; unfold_def buildSchema. intros Hm Hline.
  assert (∀ ms, m ∈ ms →
            line ∈ flat_map (fun member => buildMember member x circ) ms)
    as Hflat.
  { intros ms Hin. apply list_elem_of_In, in_flat_map.
    exists m. split; by apply list_elem_of_In. }
  destruct (element x) as [properties mapProperties objectRules
                          | methodName parameters | |]; [| |done..].
  - rewrite !elem_of_app. right. right. left.
    unfold structuralLines.
    destruct properties as [|p properties]; [by apply elem_of_nil in Hm|].
    cbn [length Nat.eqb negb orb].
    rewrite !elem_of_app. right. left. by apply Hflat.
  - rewrite !elem_of_app. right. left. by apply Hflat.
Qed.

Lemma buildSchema_in_emitSchemas x sortedSchemas circ line :
  x ∈ circ → line ∈ buildSchema x circ →
  line ∈ emitSchemas camel pascal z isRequired getHttpMethodByName
           sortedSchemas circ.
Proof.
  intros Hx Hline. unfold emitSchemas. apply elem_of_app. right.
  apply list_elem_of_In, in_flat_map. exists x.
  split; [by apply list_elem_of_In|].
  apply list_elem_of_In, elem_of_app. by left.
Qed.
End SynthesizerFacts.

(** * The claims about the mapper and the synthesizer *)
Section SynthesizerClaims.
Variable camel : string -> string.
Variable pascal : string -> string.
Variable z : string.
Variable isRequired : Member -> bool.
Variable getHttpMethodByName : string -> option HttpMethod.
Variable localeCompare : string -> string -> Z.

Local Abbreviation memberOps :=
  (memberOps camel pascal z isRequired getHttpMethodByName).
Local Abbreviation buildMemberSchema :=
  (buildMemberSchema camel pascal z isRequired getHttpMethodByName).
Local Abbreviation buildSchema :=
  (buildSchema camel pascal z isRequired getHttpMethodByName).
Local Abbreviation body :=
  (body camel pascal z isRequired getHttpMethodByName localeCompare).
Local Abbreviation bound :=
  (boundToHeaderQueryOrPath camel getHttpMethodByName).

(** C2 (amended). In a worklist with unique names, two entities that
    refer to each other are both returned as circular, and [body] emits
    the circular entities with the circular list at hand.  There every
    declared property or parameter of a circular entity whose type names
    a circular entity is mapped to a lazy reference, its line being one
    of the lines of the output, provided the camel-case form of the type
    name is the same before and after pascal casing (the lazy test
    compares names in camel case).  The lines of a union are, whatever
    the circular list, the alias of its only non-primitive variant or the
    union of its variants with every non-primitive variant as a direct
    reference to the schema of its type; for a circular union these lines
    are in the output. *)
Theorem cycle_is_circular_and_members_lazy (l : list Schema)
    (a b : Schema) :
  uniqueNames l →
  refersToEntity pascal l a b → refersToEntity pascal l b a →
  ∃ sortedSchemas circ,
    sort pascal localeCompare l = Some (sortedSchemas, circ)
    ∧ a ∈ circ ∧ b ∈ circ
    ∧ body l = Some (emitSchemas camel pascal z isRequired
                       getHttpMethodByName sortedSchemas circ)
    ∧ (∀ x m t,
         x ∈ circ → t ∈ circ → declaredMember x m →
         isPrimitive m = false → schemaName t = pascal (typeName m) →
         camel (pascal (typeName m)) = camel (typeName m) →
         memberOps m x (mkOptions false circ)
         = lazyRef pascal z m :: arrayOps m
             ++ optionalOps isRequired m (mkOptions false circ)
         ∧ camel (name m) +:+ ": "
             +:+ buildMemberSchema m x (mkOptions false circ) +:+ ","
           ∈ emitSchemas camel pascal z isRequired getHttpMethodByName
               sortedSchemas circ)
    ∧ (∀ x members discriminator,
         element x = Union members discriminator →
         (∀ cs,
            buildSchema x cs
            = match List.filter (fun m => negb (isPrimitive m)) members with
              | [only] =>
                  ["export const " +:+ pascal (schemaName x) +:+ "Schema = "
                     +:+ pascal (typeName only) +:+ "Schema;"]
              | _ =>
                  [match discriminator with
                   | Some d =>
                       "export const " +:+ pascal (schemaName x)
                         +:+ "Schema = " +:+ z +:+ ".discriminatedUnion('"
                         +:+ camel d +:+ "', ["
                   | None =>
                       "export const " +:+ pascal (schemaName x)
                         +:+ "Schema = " +:+ z +:+ ".union(["
                   end]
                    ++ map (fun member =>
                              if isPrimitive member
                              then buildMemberSchema member x
                                     (mkOptions true []) +:+ ","
                              else pascal (typeName member) +:+ "Schema,")
                           members
                    ++ ["]);"]
              end)
         ∧ (x ∈ circ →
            ∀ line, line ∈ buildSchema x circ →
                    line ∈ emitSchemas camel pascal z isRequired
                             getHttpMethodByName sortedSchemas circ)).
Proof.
  intros Huniq Hab Hba.
  apply refersTo_refersToEntity in Hab, Hba.
  destruct (sort_total pascal localeCompare l) as [[s c] Hsort].
  destruct (sort_result _ _ _ _ _ Hsort) as (Hperm & Hdeps & _).
  assert (s ⊆ l) as Hsub.
  { intros x Hx. rewrite <- Hperm. apply elem_of_app. by left. }
  assert (NoDup s) as Hnd.
  { apply uniqueNames_NoDup in Huniq. rewrite <- Hperm in Huniq.
    by apply NoDup_app in Huniq as [? _]. }
  assert (∀ x y, refersTo pascal l x y → refersTo pascal l y x → x ∈ c)
    as Hcirc.
  { intros x y Hxy Hyx.
    assert (x ∈ s ++ c) as Hx by (rewrite Hperm; apply Hxy).
    apply elem_of_app in Hx as [Hx|Hx]; [exfalso|done].
    pose proof (dependenciesFirst_precedes pascal l s x y
                  Huniq Hsub Hdeps Hx Hxy) as Hyx'.
    assert (y ∈ s) as Hy.
    { destruct Hyx' as (i & j & _ & Hi & _).
      by eapply list_elem_of_lookup_2. }
    pose proof (dependenciesFirst_precedes pascal l s y x
                  Huniq Hsub Hdeps Hy Hyx) as Hxy'.
    by eapply precedes_asym. }
  exists s, c. split_and!; [done|by eapply Hcirc..| | |].
  - unfold_def body. by rewrite Hsort.
  - intros x m t Hx Ht Hm Hprim Hname Hcase. split.
    + unfold_def memberOps; unfold referenceOps. rewrite Hprim.
      by rewrite (isLazy_circular camel pascal m x false c t).
    + apply (buildSchema_in_emitSchemas _ _ _ _ _ x); [done|].
      apply (buildMember_in_buildSchema _ _ _ _ _ x m); [done|].
      by apply list_elem_of_singleton.
  - intros x members discriminator He. split.
    + intros cs. unfold_def buildSchema; unfold unionLines; unfold exportLine.
      rewrite He.
      destruct (List.filter (fun m => negb (isPrimitive m)) members)
        as [|only [|other rest]]; destruct discriminator as [d|];
        cbn [app]; by rewrite !string_app_assoc.
    + intros Hx line Hline.
      by apply (buildSchema_in_emitSchemas _ _ _ _ _ x).
Qed.

(** C5. For a primitive member of a numeric kind or of kind boolean: if
    it has a constant it is mapped to a literal, without coercion;
    otherwise its first operation is the coercing constructor when the
    member is a parameter of a method that the HTTP binding puts in a
    header, in the query or in the path, and the plain constructor in
    every other case (a parameter bound elsewhere, such as the body, and
    every member that is not a parameter). *)
Theorem coercion_only_for_bound_parameters (member : Member)
    (parent : Schema) (options : Options) :
  isPrimitive member = true →
  isNumericName (typeName member) = true ∨ typeName member = "boolean" →
  match constant member with
  | Some c =>
      head (memberOps member parent options)
      = Some (z +:+ ".literal(" +:+ scalarToString c +:+ ")")
  | None =>
      (bound member parent →
       head (memberOps member parent options)
       = Some (z +:+ ".coerce" +:+ baseConstructor member))
      ∧ (¬ bound member parent →
         head (memberOps member parent options)
         = Some (z +:+ baseConstructor member))
  end
  ∧ z +:+ ".coerce" +:+ baseConstructor member
    ≠ z +:+ baseConstructor member.
Proof.
  intros Hprim Hkind. split.
  - unfold_def memberOps. rewrite Hprim, head_app.
    assert (primitiveOps camel z getHttpMethodByName member parent
            = if isNumericName (typeName member)
              then numberOps camel z getHttpMethodByName member parent
              else booleanOps camel z getHttpMethodByName member parent)
      as ->.
    { destruct Hkind as [Hnum|Hbool].
      - by rewrite Hnum, primitiveOps_numeric.
      - by rewrite Hbool, primitiveOps_boolean. }
    unfold numberOps, booleanOps, coercePrefix, baseConstructor.
    destruct (constant member) as [c|].
    + by destruct (isNumericName (typeName member)).
    + split.
      * intros Hb. apply shouldCoerce_spec in Hb. rewrite Hb.
        by destruct (isNumericName (typeName member)).
      * intros Hb. apply shouldCoerce_false in Hb. rewrite Hb.
        by destruct (isNumericName (typeName member)).
  - intros Heq%(inj (String.append z)). unfold baseConstructor in Heq.
    by destruct (isNumericName (typeName member)).
Qed.

(** C6. For a primitive string member without constant and without enum
    rule: when its minimal length is 1 and it has no maximal length, the
    operations are the string constructor, then [nonempty()], and
    [min(1)] is not among them; when its minimal and maximal lengths are
    the same number, the operations are the string constructor, then one
    [length(n)], followed by the pattern, the default, the array and the
    optional operations only. *)
Theorem string_length_constraints (member : Member) (parent : Schema)
    (options : Options) :
  isPrimitive member = true → typeName member = "string" →
  constant member = None →
  findRule (fun r => match r with StringEnum vs => Some vs | _ => None end)
           (rules member) = None →
  let minLengthRule :=
    findRule (fun r => match r with StringMinLength n => Some n | _ => None end)
             (rules member) in
  let maxLengthRule :=
    findRule (fun r => match r with StringMaxLength n => Some n | _ => None end)
             (rules member) in
  let afterLength :=
    match findRule (fun r => match r with
                             | StringPattern p => Some p | _ => None end)
                   (rules member) with
    | Some p => ["regex(/" +:+ p +:+ "/)"]
    | None => []
    end
    ++ match default member with
       | Some d => ["default('" +:+ scalarToString d +:+ "')"]
       | None => []
       end
    ++ arrayOps member ++ optionalOps isRequired member options in
  (minLengthRule = Some 1%Z → maxLengthRule = None →
   memberOps member parent options
   = [z +:+ ".string()"; "nonempty()"] ++ afterLength
   ∧ "min(1)" ∉ memberOps member parent options)
  ∧ (∀ n, minLengthRule = Some n → maxLengthRule = Some n →
          memberOps member parent options
          = [z +:+ ".string()"; "length(" +:+ pretty n +:+ ")"]
              ++ afterLength).
Proof.
  intros Hprim Htype Hconst Henum minLengthRule maxLengthRule afterLength.
  assert (memberOps member parent options
          = [z +:+ ".string()"]
              ++ stringLengthOps minLengthRule maxLengthRule ++ afterLength)
    as Hops.
  { unfold_def memberOps. rewrite Hprim.
    rewrite (primitiveOps_string camel z getHttpMethodByName) by done.
    unfold stringOps. rewrite Hconst, Henum.
    subst afterLength minLengthRule maxLengthRule.
    by rewrite <- !(assoc_L (++)). }
  split.
  - intros Hmin Hmax. rewrite Hops, Hmin, Hmax. split; [done|].
    simpl. subst afterLength. unfold arrayOps, optionalOps.
    repeat match goal with
           | |- _ ∉ [] => apply not_elem_of_nil
           | |- _ ∉ _ :: _ => rewrite not_elem_of_cons; split
           | |- _ ∉ _ ++ _ => rewrite not_elem_of_app; split
           | |- context [(?n =? 1)%Z] => destruct (Z.eqb_spec n 1)
           | |- _ ∉ match ?x with _ => _ end => destruct x
           end; try done.
    + intros Heq. apply (f_equal String.length) in Heq.
      rewrite string_length_app in Heq. simpl in Heq. lia.
    + intros Heq. by eapply min_op_is_not_min_1.
  - intros n Hmin Hmax. rewrite Hops, Hmin, Hmax. simpl.
    by rewrite Z.eqb_refl.
Qed.

(** C9. For every union with exactly one variant that is not primitive,
    whatever primitive variants it has besides, the lines of its schema
    are the single line that makes it an alias of the schema of that
    variant. *)
Theorem union_with_one_complex_variant_is_alias (schema : Schema)
    (circ : list Schema) (members : list Member)
    (discriminator : option string) (only : Member) :
  element schema = Union members discriminator →
  List.filter (fun m => negb (isPrimitive m)) members = [only] →
  buildSchema schema circ
  = ["export const " +:+ pascal (schemaName schema) +:+ "Schema = "
       +:+ pascal (typeName only) +:+ "Schema;"].
Proof.
  intros He Hone. unfold_def buildSchema; unfold unionLines; unfold exportLine.
  rewrite He, Hone. f_equal.
  by rewrite !string_app_assoc.
Qed.
End SynthesizerClaims.

(** * The claim about unions of primitive variants *)

Lemma lastChar_app_singleton (s : string) (c : ascii) :
  lastChar (s +:+ String c EmptyString) = Some c.
Proof.
  induction s as [|x s IH]; [done|].
  change (lastChar (String x (s +:+ String c "")) = Some c).
  destruct s; [done|]. exact IH.
Qed.

Lemma all_primitive_no_complex (members : list Member) :
  forallb isPrimitive members = true →
  List.filter (fun m => negb (isPrimitive m)) members = [].
Proof.
  induction members as [|m ms IH]; [done|]. simpl.
  intros [Hm Hms]%andb_true_iff. rewrite Hm. simpl. by apply IH.
Qed.

Lemma schemaFileTs_sortLoop_total (pascal : string -> string)
    (localeCompare : string -> string -> Z) (fuel : nat)
    (st : SchemaFileTs.LoopState) :
  SchemaFileTs.prevUnsortedLength st = length (SchemaFileTs.unsorted st) →
  length (SchemaFileTs.unsorted st) ≤ fuel →
  ∃ r, SchemaFileTs.sortLoop pascal localeCompare fuel st = Some r.
Proof.
  revert st. induction fuel as [|fuel IH]; intros st Hprev Hfuel.
  - destruct (SchemaFileTs.unsorted st) eqn:Hu; simpl in Hfuel; [|lia].
    simpl. rewrite Hu. eauto.
  - simpl. destruct (SchemaFileTs.unsorted st) as [|x u] eqn:Hu; [eauto|].
    unfold SchemaFileTs.pass.
    match goal with
    | |- context [filter ?P (SchemaFileTs.unsorted st)] =>
        pose proof (length_filter P (SchemaFileTs.unsorted st)) as Hlen
    end.
    destruct (Nat.eqb_spec (SchemaFileTs.prevUnsortedLength st)
                (length (filter (fun s => ¬ SchemaFileTs.ready pascal
                                              (SchemaFileTs.sortedNames st) s)
                                (SchemaFileTs.unsorted st)))) as [|Hne];
      [eauto|].
    apply IH; simpl; [done|].
    pose proof (length_filter
                  (fun s => ¬ SchemaFileTs.ready pascal
                                (SchemaFileTs.sortedNames st) s)
                  (SchemaFileTs.unsorted st)).
    rewrite Hu in *. simpl in *. lia.
Qed.

Section PrimitiveUnions.
Variable camel : string -> string.
Variable pascal : string -> string.
Variable z : string.
Variable isRequired : Member -> bool.
Variable isRequiredValue : SchemaFileTs.MemberValue -> bool.
Variable getHttpMethodByName : string -> option HttpMethod.
Variable localeCompare : string -> string -> Z.

Local Abbreviation buildMemberSchema :=
  (buildMemberSchema camel pascal z isRequired getHttpMethodByName).
Local Abbreviation buildSchema :=
  (buildSchema camel pascal z isRequired getHttpMethodByName).

(** C8 (amended). A union all of whose variants are primitive, with more
    than one variant, never makes the generation fail.  The generator of
    [src/schema-file.ts] emits for it the opening of a union, the line
    that says that primitive unions are not supported, and the closing.
    The generator with the circular list emits, between the opening and
    the closing, the mapped schema of each variant with the optional
    wrapper suppressed, and no such marker.  In both, [body] returns its
    lines for every worklist. *)
Theorem primitive_union_rendering
    (schemaTs : SchemaFileTs.Schema)
    (membersTs : list SchemaFileTs.MemberValue)
    (worklistTs : list SchemaFileTs.Schema)
    (schema : Schema) (members : list Member)
    (discriminator : option string) (circ worklist : list Schema) :
  (SchemaFileTs.element schemaTs = SchemaFileTs.PrimitiveUnion membersTs →
   1 < length membersTs →
   SchemaFileTs.schemaLines camel pascal z isRequiredValue
     getHttpMethodByName schemaTs
   = ["export const " +:+ pascal (SchemaFileTs.schemaName schemaTs)
        +:+ "Schema = " +:+ z +:+ ".union([";
      notSupportedMarker;
      "]);"])
  ∧ (element schema = Union members discriminator →
     forallb isPrimitive members = true → 1 < length members →
     buildSchema schema circ
     = [match discriminator with
        | Some d =>
            exportLine pascal schema +:+ z +:+ ".discriminatedUnion('"
              +:+ camel d +:+ "', ["
        | None => exportLine pascal schema +:+ z +:+ ".union(["
        end]
         ++ map (fun member =>
                   buildMemberSchema member schema (mkOptions true [])
                     +:+ ",") members
         ++ ["]);"]
     ∧ notSupportedMarker ∉ buildSchema schema circ)
  ∧ (∃ lines,
       SchemaFileTs.body camel pascal z isRequiredValue getHttpMethodByName
         localeCompare worklistTs = Some lines)
  ∧ (∃ lines,
       body camel pascal z isRequired getHttpMethodByName localeCompare
         worklist = Some lines).
Proof.
  split_and!.
  - intros He Hlen. unfold SchemaFileTs.schemaLines. rewrite He.
    unfold SchemaFileTs.unionLines, SchemaFileTs.exportLine.
    destruct membersTs as [|m1 [|m2 ms]]; simpl in Hlen; [lia..|].
    simpl. by rewrite !string_app_assoc.
  - intros He Hprim Hlen.
    assert (buildSchema schema circ
            = [match discriminator with
               | Some d =>
                   exportLine pascal schema +:+ z +:+ ".discriminatedUnion('"
                     +:+ camel d +:+ "', ["
               | None => exportLine pascal schema +:+ z +:+ ".union(["
               end]
                ++ map (fun member =>
                          buildMemberSchema member schema (mkOptions true [])
                            +:+ ",") members
                ++ ["]);"]) as Hlines.
    { unfold_def buildSchema; unfold unionLines. rewrite He.
      rewrite (all_primitive_no_complex members Hprim).
      rewrite forallb_forall in Hprim.
      f_equal. f_equal. apply map_ext_in. intros m Hm.
      by rewrite (Hprim m Hm). }
    split; [done|]. rewrite Hlines.
    rewrite !not_elem_of_app. split_and!.
    + rewrite list_elem_of_singleton.
      unfold exportLine, notSupportedMarker. by destruct discriminator.
    + intros (m & Heq & _)%list_elem_of_fmap.
      apply (f_equal lastChar) in Heq.
      by rewrite lastChar_app_singleton in Heq.
    + by rewrite list_elem_of_singleton.
  - unfold SchemaFileTs.body, SchemaFileTs.sort.
    destruct (schemaFileTs_sortLoop_total pascal localeCompare
                (length worklistTs)
                (SchemaFileTs.mkLoopState [] worklistTs ∅ (length worklistTs)))
      as [r ->]; simpl; eauto.
  - unfold_def body.
    destruct (sort_total pascal localeCompare worklist) as [[s c] ->].
    eauto.
Qed.
End PrimitiveUnions.

(** * The claims on the sample models *)

Lemma layeredWorklist_uniqueNames : uniqueNames layeredWorklist.
Proof. unfold uniqueNames. apply (bool_decide_unpack _). by vm_compute. Qed.

Lemma cyclicWorklist_uniqueNames : uniqueNames cyclicWorklist.
Proof. unfold uniqueNames. apply (bool_decide_unpack _). by vm_compute. Qed.

Lemma cyclicWorklist_author_book :
  refersTo pascalWord cyclicWorklist authorType bookType.
Proof.
  split_and!; [by repeat constructor..| |done].
  vm_compute. by repeat constructor.
Qed.

Lemma cyclicWorklist_book_author :
  refersTo pascalWord cyclicWorklist bookType authorType.
Proof.
  split_and!; [by repeat constructor..| |done].
  vm_compute. by repeat constructor.
Qed.

Lemma enums_noTies : noTies localeCompareAscii [ipEnum; idEnum].
Proof.
  intros a b Ha Hb.
  apply elem_of_cons in Ha as [->|Ha%list_elem_of_singleton];
    apply elem_of_cons in Hb as [->|Hb%list_elem_of_singleton];
    subst; try done.
  all: intros H1 H2; exfalso; revert H1 H2; by vm_compute.
Qed.

Lemma limitParameter_bound :
  boundToHeaderQueryOrPath camelWord sampleBindings limitParameter
    listWidgetsParams.
Proof.
  split; [done|].
  exists "listWidgets", [limitParameter; batchParameter],
    (mkHttpMethod [mkHttpParameter "limit" "query";
                   mkHttpParameter "batch" "body";
                   mkHttpParameter "verbose" "header"]),
    (mkHttpParameter "limit" "query").
  split_and!; [done..|]. right. by left.
Qed.

Lemma batchParameter_not_bound :
  ¬ boundToHeaderQueryOrPath camelWord sampleBindings batchParameter
      listWidgetsParams.
Proof.
  intros (_ & methodName & parameters & httpMethod & httpParam
          & He & Hm & Hp & Hloc).
  injection He as <- <-. vm_compute in Hm. injection Hm as <-.
  vm_compute in Hp. injection Hp as <-.
  by destruct Hloc as [?|[?|?]].
Qed.

(** C1 on a sample worklist without cycles, in which [Index] refers to
    [Color] and [User] through its map key and map value. *)
Lemma sort_orders_acyclic_worklist_witness :
  uniqueNames layeredWorklist
  ∧ referencesResolved pascalWord layeredWorklist
  ∧ acyclicReferences pascalWord layeredWorklist
  ∧ refersToEntity pascalWord layeredWorklist indexType userType
  ∧ ∃ sortedSchemas,
      sort pascalWord localeCompareAscii layeredWorklist
      = Some (sortedSchemas, [])
      ∧ sortedSchemas ≡ₚ layeredWorklist
      ∧ ∀ a b, refersToEntity pascalWord layeredWorklist a b →
               precedes sortedSchemas b a.
Proof.
  pose proof layeredWorklist_uniqueNames as Huniq.
  assert (referencesResolved pascalWord layeredWorklist) as Hres.
  { apply resolved_referencesResolved, resolvedb_correct.
    vm_compute; reflexivity. }
  assert (acyclicReferences pascalWord layeredWorklist) as Hacyc.
  { apply acyclic_acyclicReferences.
    apply (acyclic_of_rank pascalWord
             (fun s => if String.eqb (schemaName s) "Index" then 3
                       else length (complexMembers pascalWord s))).
    vm_compute; reflexivity. }
  split_and!; [exact Huniq|exact Hres|exact Hacyc| |].
  - split_and!; [by repeat constructor..| |done].
    exists (mkMember (Some KindMapValue) "" "user" false false [] None None).
    split_and!; [|done..]. vm_compute. by repeat constructor.
  - exact (sort_orders_acyclic_worklist pascalWord localeCompareAscii
             layeredWorklist Huniq Hres Hacyc).
Defined.

(** C2 (amended) on the sample worklist with the cycle of [Author] and
    [Book]: both are circular and the property [favourite] of [Author],
    of the type [book], is a lazy reference whose line is in the
    output. *)
Lemma cycle_is_circular_and_members_lazy_witness :
  ∃ sortedSchemas circ,
    sort pascalWord localeCompareAscii cyclicWorklist
    = Some (sortedSchemas, circ)
    ∧ authorType ∈ circ ∧ bookType ∈ circ
    ∧ body camelWord pascalWord "z" hasRequiredRule sampleBindings
        localeCompareAscii cyclicWorklist
      = Some (emitSchemas camelWord pascalWord "z" hasRequiredRule
                sampleBindings sortedSchemas circ)
    ∧ memberOps camelWord pascalWord "z" hasRequiredRule sampleBindings
        (property "favourite" "book" false []) authorType
        (mkOptions false circ)
      = ["z.lazy(()=>BookSchema)"; "optional()"]
    ∧ "favourite: "
        +:+ buildMemberSchema camelWord pascalWord "z" hasRequiredRule
              sampleBindings (property "favourite" "book" false [])
              authorType (mkOptions false circ) +:+ ","
      ∈ emitSchemas camelWord pascalWord "z" hasRequiredRule
          sampleBindings sortedSchemas circ.
Proof.
  destruct (cycle_is_circular_and_members_lazy camelWord pascalWord "z"
              hasRequiredRule sampleBindings localeCompareAscii
              cyclicWorklist authorType bookType
              cyclicWorklist_uniqueNames
              (proj1 (refersTo_refersToEntity pascalWord _ _ _)
                     cyclicWorklist_author_book)
              (proj1 (refersTo_refersToEntity pascalWord _ _ _)
                     cyclicWorklist_book_author))
    as (s & c & Hsort & Ha & Hb & Hbody & Hlazy & _).
  exists s, c. split_and!; [exact Hsort|exact Ha|exact Hb|exact Hbody|..].
  - apply (Hlazy authorType (property "favourite" "book" false []) bookType
             Ha Hb); [by repeat constructor|reflexivity..].
  - apply (Hlazy authorType (property "favourite" "book" false []) bookType
             Ha Hb); [by repeat constructor|reflexivity..].
Defined.

(** C2 as stated fails on a cycle through a union: [Shape] and [Group]
    refer to each other and are both circular, and the schema of [Shape]
    names [GroupSchema] directly. *)
Lemma union_in_cycle_refers_directly :
  refersTo pascalWord unionWorklist shapeUnion groupType
  ∧ refersTo pascalWord unionWorklist groupType shapeUnion
  ∧ sort pascalWord localeCompareAscii unionWorklist
    = Some ([circleType], [shapeUnion; groupType])
  ∧ buildSchema camelWord pascalWord "z" hasRequiredRule sampleBindings
      shapeUnion [shapeUnion; groupType]
    = ["export const ShapeSchema = z.union(["; "CircleSchema,";
       "GroupSchema,"; "]);"]
  ∧ Forall (fun line => String.index 0 "lazy" line = None)
           (buildSchema camelWord pascalWord "z" hasRequiredRule
              sampleBindings shapeUnion [shapeUnion; groupType]).
Proof.
  split_and!.
  - split_and!; [by repeat constructor..| |done].
    vm_compute. by repeat constructor.
  - split_and!; [by repeat constructor..| |done].
    vm_compute. by repeat constructor.
  - by vm_compute.
  - by vm_compute.
  - vm_compute. by repeat constructor.
Qed.

(** C3 (amended) on two enums given in both orders. *)
Lemma layers_ascending_by_localeCompare_witness :
  ∃ sortedSchemas circ,
    sort pascalWord localeCompareAscii [ipEnum; idEnum]
    = Some (sortedSchemas, circ)
    ∧ sortedSchemas
      = concat (sortLayers pascalWord localeCompareAscii 2
                  (initialState [ipEnum; idEnum]))
    ∧ Forall (StronglySorted (ascending (compareSchemas localeCompareAscii)))
             (sortLayers pascalWord localeCompareAscii 2
                (initialState [ipEnum; idEnum]))
    ∧ ∃ circ',
        sort pascalWord localeCompareAscii [idEnum; ipEnum]
        = Some (sortedSchemas, circ')
        ∧ sortLayers pascalWord localeCompareAscii 2
            (initialState [idEnum; ipEnum])
          = sortLayers pascalWord localeCompareAscii 2
              (initialState [ipEnum; idEnum])
        ∧ circ ≡ₚ circ'.
Proof.
  destruct (layers_ascending_by_localeCompare pascalWord localeCompareAscii
              [ipEnum; idEnum]
              localeCompareAscii_total localeCompareAscii_trans)
    as (s & c & Hsort & Hconcat & Hasc & Hindep).
  exists s, c. split_and!; [exact Hsort|exact Hconcat|exact Hasc|].
  exact (Hindep enums_noTies [idEnum; ipEnum] (perm_swap idEnum ipEnum [])).
Defined.

(** C3 as stated fails: the layer of the two enums is [Id] then [IP],
    while the comparison of character codes puts [IP] first. *)
Lemma layer_not_in_character_code_order :
  sort pascalWord localeCompareAscii [ipEnum; idEnum]
  = Some ([idEnum; ipEnum], [])
  ∧ sortLayers pascalWord localeCompareAscii 2 (initialState [ipEnum; idEnum])
    = [[idEnum; ipEnum]]
  ∧ charCodeCompare "Id" "IP" = 1%Z
  ∧ ¬ StronglySorted (ascending (compareSchemas charCodeCompare))
        [idEnum; ipEnum].
Proof.
  split_and!; [by vm_compute..|].
  intros Hsorted. apply StronglySorted_inv in Hsorted as [_ Hhead].
  apply Forall_inv in Hhead. revert Hhead. by vm_compute.
Qed.

(** C4 on the sample worklist with a cycle, from the first pass. *)
Lemma sort_terminates_within_length_passes_witness :
  (∃ result,
     sortWithin pascalWord localeCompareAscii 3 cyclicWorklist = Some result)
  ∧ (∀ fuel, 3 ≤ fuel →
             sortWithin pascalWord localeCompareAscii fuel cyclicWorklist
             = sortWithin pascalWord localeCompareAscii 3 cyclicWorklist)
  ∧ (pass pascalWord localeCompareAscii (initialState cyclicWorklist)
     = inr (sorted (initialState cyclicWorklist),
            unsorted (initialState cyclicWorklist))
     ∨ ∃ st', pass pascalWord localeCompareAscii (initialState cyclicWorklist)
              = inl st'
              ∧ length (unsorted st') < 3
              ∧ prevUnsortedLength st' = length (unsorted st')).
Proof.
  destruct (sort_terminates_within_length_passes pascalWord localeCompareAscii
              cyclicWorklist (initialState cyclicWorklist))
    as (Hret & Hfuel & Hpass).
  split_and!; [exact Hret|exact Hfuel|exact (Hpass eq_refl)].
Defined.

(** C5 on the parameters of the sample method: [limit] is bound to the
    query and coerces, [batch] is bound to the body and does not. *)
Lemma coercion_only_for_bound_parameters_witness :
  head (memberOps camelWord pascalWord "z" hasRequiredRule sampleBindings
          limitParameter listWidgetsParams noOptions)
  = Some "z.coerce.number()"
  ∧ head (memberOps camelWord pascalWord "z" hasRequiredRule sampleBindings
            batchParameter listWidgetsParams noOptions)
    = Some "z.number()".
Proof.
  split.
  - exact (proj1 (proj1 (coercion_only_for_bound_parameters camelWord
                           pascalWord "z" hasRequiredRule sampleBindings
                           limitParameter listWidgetsParams noOptions
                           eq_refl (or_introl eq_refl)))
             limitParameter_bound).
  - exact (proj2 (proj1 (coercion_only_for_bound_parameters camelWord
                           pascalWord "z" hasRequiredRule sampleBindings
                           batchParameter listWidgetsParams noOptions
                           eq_refl (or_introl eq_refl)))
             batchParameter_not_bound).
Defined.

(** C6 on a name of minimal length 1 and on a code of length exactly 3. *)
Lemma string_length_constraints_witness :
  (memberOps camelWord pascalWord "z" hasRequiredRule sampleBindings
     (property "name" "string" true [Required; StringMinLength 1])
     userType noOptions
   = ["z.string()"; "nonempty()"]
   ∧ "min(1)" ∉ memberOps camelWord pascalWord "z" hasRequiredRule
                  sampleBindings
                  (property "name" "string" true [Required; StringMinLength 1])
                  userType noOptions)
  ∧ memberOps camelWord pascalWord "z" hasRequiredRule sampleBindings
      (property "code" "string" true [StringMinLength 3; StringMaxLength 3])
      userType noOptions
    = ["z.string()"; "length(3)"; "optional()"].
Proof.
  split.
  - exact (proj1 (string_length_constraints camelWord pascalWord "z"
                    hasRequiredRule sampleBindings
                    (property "name" "string" true
                       [Required; StringMinLength 1])
                    userType noOptions eq_refl eq_refl eq_refl eq_refl)
             eq_refl eq_refl).
  - exact (proj2 (string_length_constraints camelWord pascalWord "z"
                    hasRequiredRule sampleBindings
                    (property "code" "string" true
                       [StringMinLength 3; StringMaxLength 3])
                    userType noOptions eq_refl eq_refl eq_refl eq_refl)
             3%Z eq_refl eq_refl).
Defined.

(** C7 as stated fails without a map extension: the sample record has both
    key-count rules and its schema has no refinement. *)
Lemma record_without_map_extension_not_refined :
  maxPropertiesRule settingsRules = Some 5%Z
  ∧ minPropertiesRule settingsRules = Some 1%Z
  ∧ buildSchema camelWord pascalWord "z" hasRequiredRule sampleBindings
      plainSettings []
    = ["export const SettingsSchema = "; "z.object({"; "theme: z.string(),";
       "})"]
  ∧ ".refine(" ∉ buildSchema camelWord pascalWord "z" hasRequiredRule
                   sampleBindings plainSettings [].
Proof.
  split_and!; [by vm_compute..|].
  assert (buildSchema camelWord pascalWord "z" hasRequiredRule sampleBindings
            plainSettings []
          = ["export const SettingsSchema = "; "z.object({";
             "theme: z.string(),"; "})"]) as -> by by vm_compute.
  rewrite !not_elem_of_cons. split_and!; [done..|apply not_elem_of_nil].
Qed.

(** C8 (amended) on the sample union of [string] and [number], in both
    representations. *)
Lemma primitive_union_rendering_witness :
  SchemaFileTs.schemaLines camelWord pascalWord "z" (fun _ => true)
    sampleBindings scalarUnionTs
  = ["export const ScalarSchema = z.union(["; notSupportedMarker; "]);"]
  ∧ (buildSchema camelWord pascalWord "z" hasRequiredRule sampleBindings
       scalarUnion []
     = ["export const ScalarSchema = z.union(["; "z.string(),"; "z.number(),";
        "]);"]
     ∧ notSupportedMarker
       ∉ buildSchema camelWord pascalWord "z" hasRequiredRule sampleBindings
           scalarUnion []).
Proof.
  destruct (primitive_union_rendering camelWord pascalWord "z"
              hasRequiredRule (fun _ => true) sampleBindings
              localeCompareAscii scalarUnionTs
              [SchemaFileTs.mkMemberValue SchemaFileTs.PrimitiveValue
                 "string" false [] None;
               SchemaFileTs.mkMemberValue SchemaFileTs.PrimitiveValue
                 "number" false [] None]
              [scalarUnionTs] scalarUnion
              [variant "string" true; variant "number" true] None
              [] [scalarUnion])
    as (Hts & Hunion & _ & _).
  split.
  - apply Hts; [reflexivity|simpl; lia].
  - apply Hunion; [reflexivity|reflexivity|simpl; lia].
Defined.

(** C8 as stated fails on the generator with the circular list: the union
    of [string] and [number] is emitted with the schemas of its variants
    and without the marker. *)
Lemma primitive_union_emitted_without_marker :
  forallb isPrimitive [variant "string" true; variant "number" true] = true
  ∧ buildSchema camelWord pascalWord "z" hasRequiredRule sampleBindings
      scalarUnion []
    = ["export const ScalarSchema = z.union(["; "z.string(),"; "z.number(),";
       "]);"]
  ∧ notSupportedMarker
    ∉ ["export const ScalarSchema = z.union(["; "z.string(),"; "z.number(),";
       "]);"].
Proof.
  split_and!; [by vm_compute..|].
  rewrite !not_elem_of_cons. split_and!; [done..|apply not_elem_of_nil].
Qed.

(** C9 on a union of [null] and [User]. *)
Lemma union_with_one_complex_variant_is_alias_witness :
  buildSchema camelWord pascalWord "z" hasRequiredRule sampleBindings
    nullableUser []
  = ["export const MaybeUserSchema = UserSchema;"].
Proof.
  exact (union_with_one_complex_variant_is_alias camelWord pascalWord "z"
           hasRequiredRule sampleBindings nullableUser []
           [variant "null" true; variant "user" false] None
           (variant "user" false) eq_refl eq_refl).
Defined.


(** * Further examples *)

(** The record [User] alone, with its reference to [Address] removed. *)
Example user_alone_end_to_end :
  body camelWord pascalWord "z" hasRequiredRule sampleBindings
    localeCompareAscii
    [mkSchema "User"
       (Type_ [property "id" "integer" true [Required];
               property "name" "string" true [Required; StringMinLength 1]]
              None [])]
  = Some ["export const UserSchema = "; "z.object({";
          "id: z.number().int(),"; "name: z.string().nonempty(),"; "})"; ""].
Proof. by vm_compute. Qed.

(** A reference that does not resolve blocks its entity, which is returned
    as circular although it is on no cycle. *)
Example unresolved_reference_is_circular :
  sort pascalWord localeCompareAscii [orderType; colorEnum]
  = Some ([colorEnum], [orderType]).
Proof. by vm_compute. Qed.

(** The value of the map extension of a circular record is mapped without
    the circular list: the reference is direct. *)
Example map_value_in_cycle_emitted :
  sort pascalWord localeCompareAscii [treeType; branchType]
  = Some ([], [treeType; branchType])
  ∧ buildSchema camelWord pascalWord "z" hasRequiredRule sampleBindings
      treeType [treeType; branchType]
    = ["export const TreeSchema = "; "z.record(BranchSchema)"].
Proof. split; by vm_compute. Qed.

(** The whole output for the worklist with the cycle of [Author] and
    [Book]. *)
Example cyclic_worklist_output :
  body camelWord pascalWord "z" hasRequiredRule sampleBindings
    localeCompareAscii cyclicWorklist
  = Some ["export const ColorSchema = z.enum(["; "  'red',"; "  'green',";
          "]);"; "";
          "export const BookSchema = "; "z.object({";
          "author: z.lazy(()=>AuthorSchema),"; "})"; "";
          "export const AuthorSchema = "; "z.object({";
          "favourite: z.lazy(()=>BookSchema).optional(),"; "})"; ""].
Proof. by vm_compute. Qed.

(** * More about the resolver *)
Section ResolverExtras.
Variable pascal : string -> string.
Variable localeCompare : string -> string -> Z.

Local Abbreviation sort := (sort pascal localeCompare).
Local Abbreviation sortLoop := (sortLoop pascal localeCompare).
Local Abbreviation unsortable := (unsortable pascal).

Lemma sorted_not_blocked s e :
  dependenciesFirst pascal s → e ∈ s → ¬ blocked pascal s e.
Proof.
  intros Hdeps [j Hj]%list_elem_of_lookup (n & Hn & Hne & Hnot).
  destruct (Hdeps j e n Hj Hn) as [?|(i & d & _ & Hi & <-)]; [done|].
  apply Hnot, list_elem_of_fmap_2. by eapply list_elem_of_lookup_2.
Qed.

Lemma sortLoop_circular_sublist fuel st s c :
  sortLoop fuel st = Some (s, c) → c `sublist_of` unsorted st.
Proof.
  revert st. induction fuel as [|fuel IH]; intros st; simpl.
  - destruct (unsorted st); [|done]. by intros [= <- <-].
  - destruct (unsorted st) as [|x u] eqn:Hu.
    { by intros [= <- <-]. }
    assert (unsortable st `sublist_of` x :: u) as Hsub.
    { rewrite <- Hu. apply sublist_filter. }
    destruct (pass pascal localeCompare st) as [st'|[s' c']] eqn:Hpass.
    + intros Hr%IH. apply pass_inl in Hpass as (_ & _ & Hu' & _).
      rewrite Hu' in Hr. by etransitivity.
    + intros [= -> ->]. by apply pass_inr in Hpass as (_ & _ & ->).
Qed.

(** X1. An entity of the worklist is returned as circular exactly when it
    is blocked by the sorted list (one of its complex members names neither
    the entity itself nor a sorted entity), and is in the sorted list
    exactly when it is not. *)
Theorem circular_iff_blocked (l : list Schema) (e : Schema) :
  e ∈ l →
  ∃ sortedSchemas circ,
    sort l = Some (sortedSchemas, circ)
    ∧ (e ∈ circ ↔ blocked pascal sortedSchemas e)
    ∧ (e ∈ sortedSchemas ↔ ¬ blocked pascal sortedSchemas e).
Proof.
  intros He.
  destruct (sort_total pascal localeCompare l) as [[s c] Hsort].
  destruct (sort_result _ _ _ _ _ Hsort) as (Hperm & Hdeps & Hblocked).
  rewrite <- Hperm in He. apply elem_of_app in He.
  exists s, c. split_and!; [done|split|split].
  - apply Hblocked.
  - intros Hb. destruct He as [He|He]; [|done].
    by destruct (sorted_not_blocked s e).
  - by apply sorted_not_blocked.
  - intros Hnb. destruct He as [He|He]; [done|].
    destruct Hnb. by apply Hblocked.
Qed.

(** X2. For every worklist, in the sorted list every complex member of an
    entity names the entity itself or an entity at a smaller index. *)
Theorem sorted_list_has_dependencies_first (l : list Schema) :
  ∃ sortedSchemas circ,
    sort l = Some (sortedSchemas, circ)
    ∧ ∀ j e n,
        sortedSchemas !! j = Some e → n ∈ complexMembers pascal e →
        n = schemaName e
        ∨ ∃ i d, i < j ∧ sortedSchemas !! i = Some d ∧ schemaName d = n.
Proof.
  destruct (sort_total pascal localeCompare l) as [[s c] Hsort].
  destruct (sort_result _ _ _ _ _ Hsort) as (_ & Hdeps & _).
  exists s, c. split; [done|]. exact Hdeps.
Qed.

(** X3. In a worklist with unique names, an entity that refers to a
    circular entity is circular itself. *)
Theorem dependents_of_circular_are_circular (l : list Schema)
    (a b : Schema) :
  uniqueNames l → refersTo pascal l a b →
  ∃ sortedSchemas circ,
    sort l = Some (sortedSchemas, circ) ∧ (b ∈ circ → a ∈ circ).
Proof.
  intros Huniq Hab.
  destruct (sort_total pascal localeCompare l) as [[s c] Hsort].
  destruct (sort_result _ _ _ _ _ Hsort) as (Hperm & Hdeps & _).
  exists s, c. split; [done|]. intros Hb.
  assert (a ∈ s ++ c) as Ha by (rewrite Hperm; apply Hab).
  apply elem_of_app in Ha as [Ha|Ha]; [exfalso|done].
  assert (s ⊆ l) as Hsub.
  { intros x Hx. rewrite <- Hperm. apply elem_of_app. by left. }
  destruct (dependenciesFirst_precedes pascal l s a b Huniq Hsub Hdeps Ha Hab)
    as (i & j & _ & Hi & _).
  apply uniqueNames_NoDup in Huniq. rewrite <- Hperm in Huniq.
  apply NoDup_app in Huniq as (_ & Hdisj & _).
  eapply Hdisj; [|exact Hb]. by eapply list_elem_of_lookup_2.
Qed.

(** X4. An entity with a complex member that names neither the entity
    itself nor any entity of the worklist is returned as circular. *)
Theorem unresolved_reference_makes_circular (l : list Schema) (e : Schema)
    (n : string) :
  e ∈ l → n ∈ complexMembers pascal e → n ≠ schemaName e →
  n ∉ schemaName <$> l →
  ∃ sortedSchemas circ, sort l = Some (sortedSchemas, circ) ∧ e ∈ circ.
Proof.
  intros He Hn Hne Hnot.
  destruct (sort_total pascal localeCompare l) as [[s c] Hsort].
  destruct (sort_result _ _ _ _ _ Hsort) as (Hperm & Hdeps & _).
  exists s, c. split; [done|].
  rewrite <- Hperm in He. apply elem_of_app in He as [He|He]; [exfalso|done].
  apply (sorted_not_blocked s e Hdeps He). exists n. split_and!; [done..|].
  intros Hin. apply Hnot. rewrite <- Hperm, fmap_app. apply elem_of_app.
  by left.
Qed.

(** X5. An entity all of whose complex members name the entity itself (in
    particular an entity without complex members, such as an enum) is in
    the sorted list: a self-reference never blocks. *)
Theorem self_reference_never_blocks (l : list Schema) (e : Schema) :
  e ∈ l → (∀ n, n ∈ complexMembers pascal e → n = schemaName e) →
  ∃ sortedSchemas circ, sort l = Some (sortedSchemas, circ) ∧ e ∈ sortedSchemas.
Proof.
  intros He Hself.
  destruct (sort_total pascal localeCompare l) as [[s c] Hsort].
  destruct (sort_result _ _ _ _ _ Hsort) as (Hperm & _ & Hblocked).
  exists s, c. split; [done|].
  rewrite <- Hperm in He. apply elem_of_app in He as [He|He]; [done|].
  destruct (Hblocked e He) as (n & Hn & Hne & _). by apply Hself in Hn.
Qed.

(** X6. The circular list is a subsequence of the worklist: the circular
    entities keep the order in which the worklist has them. *)
Theorem circular_keeps_input_order (l : list Schema) :
  ∃ sortedSchemas circ,
    sort l = Some (sortedSchemas, circ) ∧ circ `sublist_of` l.
Proof.
  destruct (sort_total pascal localeCompare l) as [[s c] Hsort].
  exists s, c. split; [done|].
  by apply sortLoop_circular_sublist in Hsort.
Qed.
End ResolverExtras.

(** * More about the member mapper *)

Lemma containsChar_app_l ch a b :
  containsChar ch a = true → containsChar ch (a +:+ b) = true.
Proof.
  induction a as [|c a IH]; [done|].
  change (Ascii.eqb ch c || containsChar ch a = true
          → Ascii.eqb ch c || containsChar ch (a +:+ b) = true).
  rewrite !orb_true_iff. intros [?|?]; auto.
Qed.

Lemma containsChar_app_r ch a b :
  containsChar ch b = true → containsChar ch (a +:+ b) = true.
Proof.
  intros Hb. induction a as [|c a IH]; [done|].
  change (Ascii.eqb ch c || containsChar ch (a +:+ b) = true).
  rewrite IH. apply orb_true_r.
Qed.

Lemma differs_by_char ch (t x : string) :
  containsChar ch t = false → containsChar ch x = true → t ≠ x.
Proof. intros Ht Hx ->. congruence. Qed.

Lemma app_prefix (c r t : string) :
  c +:+ r = t → String.prefix c t = true.
Proof.
  revert t. induction c as [|a c IH]; intros t; [by destruct t|].
  change (String a (c +:+ r) = t → String.prefix (String a c) t = true).
  intros <-. simpl. destruct (ascii_dec a a); [|done]. by apply IH.
Qed.

Lemma differs_by_prefix (c r t : string) :
  String.prefix c t = false → t ≠ c +:+ r.
Proof. intros Hp Heq. symmetry in Heq. apply app_prefix in Heq. congruence. Qed.

Lemma string_app_inj_r (a b s : string) : a +:+ s = b +:+ s → a = b.
Proof.
  revert b. induction a as [|x a IH]; intros b Heq.
  - destruct b as [|y b]; [done|]. apply (f_equal String.length) in Heq.
    change (String.length s = S (String.length (b +:+ s))) in Heq.
    rewrite string_length_app in Heq. lia.
  - destruct b as [|y b].
    + apply (f_equal String.length) in Heq.
      change (S (String.length (a +:+ s)) = String.length s) in Heq.
      rewrite string_length_app in Heq. lia.
    + change (String x (a +:+ s) = String y (b +:+ s)) in Heq.
      injection Heq as -> Heq. f_equal. by apply IH.
Qed.

Lemma differs_by_argument (pre : string) (n v : Z) :
  n ≠ v → pre +:+ pretty v +:+ ")" ≠ pre +:+ pretty n +:+ ")".
Proof.
  intros Hn Heq. apply Hn. apply (inj (String.append pre)) in Heq.
  apply string_app_inj_r in Heq. by apply (inj pretty).
Qed.

Lemma differs_by_prefix2 (a b r t : string) :
  String.prefix (a +:+ b) t = false → t ≠ a +:+ b +:+ r.
Proof. rewrite <- string_app_assoc. apply differs_by_prefix. Qed.

Lemma differs_by_argument2 (op : string) (n v : Z) :
  n ≠ v → op +:+ "(" +:+ pretty v +:+ ")" ≠ op +:+ "(" +:+ pretty n +:+ ")".
Proof.
  intros Hn Heq. apply (inj (String.append op)) in Heq.
  by apply (differs_by_argument "(" n v).
Qed.

(** [op_differs] proves [t ≠ x] for a closed string [t] and an operation
    [x]: by evaluation, by a prefix of [x], by a character of [x] that [t]
    has not, or by the argument of the operation. *)
Ltac has_char :=
  solve [ reflexivity
        | apply containsChar_app_l; reflexivity
        | apply containsChar_app_r; has_char ].

Ltac op_differs :=
  solve [ done
        | apply differs_by_prefix; reflexivity
        | apply (differs_by_char "."%char); [reflexivity|has_char]
        | apply (differs_by_char "S"%char); [reflexivity|has_char]
        | apply differs_by_prefix2; reflexivity
        | match goal with
          | H : ?n ≠ ?v |- _ ≠ ?op +:+ "(" +:+ pretty ?n +:+ ")" =>
              exact (differs_by_argument2 op n v H)
          | H : ?n ≠ ?v |- _ ≠ ?pre +:+ pretty ?n +:+ ")" =>
              exact (differs_by_argument pre n v H)
          end ].

(** [never_op] proves [t ∉ ops] for a closed string [t] by cases on the
    tests that build [ops]. *)
Ltac never_op :=
  repeat match goal with
         | |- _ ∉ [] => apply not_elem_of_nil
         | |- _ ∉ _ :: _ => rewrite not_elem_of_cons; split; [op_differs|]
         | |- _ ∉ _ ++ _ => rewrite not_elem_of_app; split
         | |- context [(?n =? ?k)%Z] => destruct (Z.eqb_spec n k)
         | |- _ ∉ (if ?b then _ else _) => destruct b
         | |- _ ∉ match ?x with _ => _ end => destruct x
         end.

Ltac unfold_ops :=
  unfold memberOps, primitiveOps, stringOps, numberOps, booleanOps,
    referenceOps, arrayOps, optionalOps, boundOp, stringLengthOps,
    coercePrefix, lazyRef, directRef.

(** [find_op] proves [t ∈ ops] when [t] is at a place of [ops] that no
    test decides. *)
Ltac find_op :=
  solve [ apply list_elem_of_here
        | apply list_elem_of_further; find_op
        | apply elem_of_app; left; find_op
        | apply elem_of_app; right; find_op ].

Section MapperExtras.
Variable camel : string -> string.
Variable pascal : string -> string.
Variable z : string.
Variable isRequired : Member -> bool.
Variable getHttpMethodByName : string -> option HttpMethod.

Local Abbreviation memberOps :=
  (memberOps camel pascal z isRequired getHttpMethodByName).

(** X9. No member is ever mapped to [min(1)]: a minimal length or a minimal
    number of items of 1 is always written [nonempty()] (or [length(1)]);
    in particular an array member with at least one item has [nonempty()]
    among its operations. *)
Theorem min_one_is_nonempty (member : Member) (parent : Schema)
    (options : Options) :
  ("min(1)" ∉ memberOps member parent options)
  ∧ (isArray member = true →
     findRule (fun r => match r with ArrayMinItems n => Some n | _ => None end)
              (rules member) = Some 1%Z →
     "nonempty()" ∈ memberOps member parent options).
Proof.
  split.
  - unfold_ops. never_op.
  - intros Harr Hmin. unfold_ops. rewrite Harr, Hmin. simpl. find_op.
Qed.

(** X7. The operations of a member contain [optional()] exactly when the
    member is not required, is neither a map key nor a map value, the
    caller does not prevent it, and the member is complex or has no
    default. *)
Theorem optional_wrapper_rule (member : Member) (parent : Schema)
    (options : Options) :
  "optional()" ∈ memberOps member parent options
  ↔ isRequired member = false
    ∧ kind member ≠ Some KindMapKey ∧ kind member ≠ Some KindMapValue
    ∧ preventOptional options = false
    ∧ (isPrimitive member = false ∨ default member = None).
Proof.
  assert ("optional()" ∉
            (if isPrimitive member
             then primitiveOps camel z getHttpMethodByName member parent
             else referenceOps camel pascal z member parent options)
            ++ arrayOps member) as Hbase.
  { unfold_ops. never_op. }
  unfold_def memberOps. rewrite (assoc_L (++)), elem_of_app.
  unfold optionalOps, hasKind. split.
  - intros [?|Hin]; [done|].
    destruct (isRequired member); [by apply elem_of_nil in Hin|].
    destruct (preventOptional options);
      [by destruct (kind member) as [[]|]; apply elem_of_nil in Hin|].
    destruct (isPrimitive member), (default member), (kind member) as [[]|];
      simpl in Hin; try (by apply elem_of_nil in Hin);
      split_and!; auto; done.
  - intros (-> & Hkey & Hvalue & -> & Hdef). right.
    destruct (kind member) as [[]|]; try done;
      destruct Hdef as [-> | ->]; simpl;
      try destruct (isPrimitive member); simpl; apply list_elem_of_here.
Qed.

(** X8. No member is ever mapped to [gt(0)], [gte(0)], [lt(0)] or
    [lte(0)]; a numeric member without constant whose bound is zero has the
    named operation instead: [positive()], [nonnegative()], [negative()],
    [nonpositive()]. *)
Theorem zero_bounds_are_named (member : Member) (parent : Schema)
    (options : Options) :
  (("gt(0)" ∉ memberOps member parent options)
   ∧ ("gte(0)" ∉ memberOps member parent options)
   ∧ ("lt(0)" ∉ memberOps member parent options)
   ∧ ("lte(0)" ∉ memberOps member parent options))
  ∧ (isPrimitive member = true → isNumericName (typeName member) = true →
     constant member = None →
     (findRule (fun r => match r with NumberGT v => Some v | _ => None end)
               (rules member) = Some 0%Z →
      "positive()" ∈ memberOps member parent options)
     ∧ (findRule (fun r => match r with NumberGTE v => Some v | _ => None end)
                 (rules member) = Some 0%Z →
        "nonnegative()" ∈ memberOps member parent options)
     ∧ (findRule (fun r => match r with NumberLT v => Some v | _ => None end)
                 (rules member) = Some 0%Z →
        "negative()" ∈ memberOps member parent options)
     ∧ (findRule (fun r => match r with NumberLTE v => Some v | _ => None end)
                 (rules member) = Some 0%Z →
        "nonpositive()" ∈ memberOps member parent options)).
Proof.
  split.
  - split_and!; unfold_ops; never_op.
  - intros Hprim Hnum Hconst.
    unfold_def memberOps. rewrite Hprim.
    rewrite (primitiveOps_numeric camel z getHttpMethodByName) by done.
    unfold numberOps, boundOp. rewrite Hconst.
    split_and!; intros ->; simpl; find_op.
Qed.
End MapperExtras.

(** * More about the synthesizer *)

Lemma lastChar_app_nonempty (a b : string) (c : ascii) :
  lastChar (a +:+ String c b) = lastChar (String c b).
Proof.
  induction a as [|x a IH]; [done|].
  change (lastChar (String x (a +:+ String c b)) = lastChar (String c b)).
  rewrite <- IH. by destruct a.
Qed.

(** [ends_differ] proves [t ≠ x] from the first and the last character of
    [t], given as hypotheses, and those of the line [x]. *)
Ltac ends_differ :=
  let H := fresh in
  intros H;
  match goal with
  | Hf : firstChar ?t = Some _, Hl : lastChar ?t = Some _ |- _ =>
      rewrite H in Hf, Hl;
      first [ by vm_compute in Hf
            | by vm_compute in Hl
            | rewrite <- ?string_app_assoc in Hl;
              rewrite lastChar_app_nonempty in Hl; by vm_compute in Hl ]
  end.

Ltac never_line :=
  repeat match goal with
         | |- _ ∉ [] => apply not_elem_of_nil
         | |- _ ∉ _ :: _ => rewrite not_elem_of_cons; split; [ends_differ|]
         | |- _ ∉ _ ++ _ => rewrite not_elem_of_app; split
         | |- _ ∉ (if ?b then _ else _) => destruct b
         | |- _ ∉ match ?x with _ => _ end => destruct x
         end.

Section SynthesizerExtras.
Variable camel : string -> string.
Variable pascal : string -> string.
Variable z : string.
Variable isRequired : Member -> bool.
Variable getHttpMethodByName : string -> option HttpMethod.
Variable localeCompare : string -> string -> Z.

Local Abbreviation memberOps :=
  (memberOps camel pascal z isRequired getHttpMethodByName).
Local Abbreviation buildMemberSchema :=
  (buildMemberSchema camel pascal z isRequired getHttpMethodByName).
Local Abbreviation buildMember :=
  (buildMember camel pascal z isRequired getHttpMethodByName).
Local Abbreviation buildRequiredKey :=
  (buildRequiredKey camel pascal z isRequired getHttpMethodByName).
Local Abbreviation buildSchema :=
  (buildSchema camel pascal z isRequired getHttpMethodByName).
Local Abbreviation emitSchemas :=
  (emitSchemas camel pascal z isRequired getHttpMethodByName).
Local Abbreviation body :=
  (body camel pascal z isRequired getHttpMethodByName localeCompare).


Lemma buildSchema_in_emitSchemas_sorted x sortedSchemas circ line :
  x ∈ sortedSchemas → line ∈ buildSchema x [] →
  line ∈ emitSchemas sortedSchemas circ.
Proof.
  intros Hx Hline. unfold_def emitSchemas. apply elem_of_app. left.
  apply list_elem_of_In, in_flat_map. exists x.
  split; [by apply list_elem_of_In|].
  apply list_elem_of_In, elem_of_app. by left.
Qed.


Lemma member_lines_end_with_comma t circ x ms :
  lastChar t ≠ Some ","%char →
  t ∉ flat_map (fun member => buildMember member x circ) ms.
Proof.
  intros Ht Hin. apply list_elem_of_In, in_flat_map in Hin as (m & _ & Hm).
  apply list_elem_of_In, list_elem_of_singleton in Hm. destruct Ht.
  rewrite Hm, <- !string_app_assoc. apply lastChar_app_nonempty.
Qed.

Lemma required_key_lines_end_with_comma t circ x v ks :
  lastChar t ≠ Some ","%char →
  t ∉ flat_map (fun k => buildRequiredKey (camel k) v x circ) ks.
Proof.
  intros Ht Hin. apply list_elem_of_In, in_flat_map in Hin as (k & _ & Hk).
  apply list_elem_of_In, list_elem_of_singleton in Hk. destruct Ht.
  rewrite Hk, <- !string_app_assoc. apply lastChar_app_nonempty.
Qed.

(** X11. For a record with properties and a map extension: when the map
    key has rules, the set of the property names that the validation of
    the keys consults is declared among the lines of the schema; when the
    map key is of a complex type and has no rule, the validation consults
    the set and no line declares it. *)
Theorem key_set_declared_only_with_key_rules (schema : Schema)
    (circ : list Schema) (properties : list Member) (mp : MapProperties)
    (objectRules : list ObjectRule) :
  element schema = Type_ properties (Some mp) objectRules →
  properties ≠ [] →
  let keySet := keySetName camel (schemaName schema) in
  let declaration :=
    "const " +:+ keySet +:+ " = new Set(["
      +:+ String.concat ", " (map (fun p => quoted (name p)) properties)
      +:+ "]);" in
  let use := "    if (" +:+ keySet +:+ ".has(key)) continue;" in
  (rules (key mp) ≠ [] →
   declaration ∈ buildSchema schema circ ∧ use ∈ buildSchema schema circ)
  ∧ (rules (key mp) = [] → isPrimitive (key mp) = false →
     use ∈ buildSchema schema circ ∧ declaration ∉ buildSchema schema circ).
Proof.
  intros He Hprops keySet declaration use.
  destruct properties as [|p ps]; [done|]. unfold_def buildSchema. rewrite He.
  split.
  - intros Hrules. destruct (rules (key mp)) as [|r rs] eqn:Hr; [done|].
    unfold keyPreamble, keyValidation. rewrite Hr. simpl.
    split; find_op.
  - intros Hrules Hprim.
    unfold keyPreamble, keyValidation. rewrite Hrules, Hprim. simpl.
    split; [find_op|].
    assert (firstChar declaration = Some "c"%char) as Hfirst by done.
    assert (lastChar declaration = Some ";"%char) as Hlast.
    { subst declaration. rewrite <- !string_app_assoc.
      by rewrite lastChar_app_nonempty. }
    clearbody declaration.
    unfold structuralLines, keyCountRefinements, maxKeysRefinement,
      minKeysRefinement, exportLine. simpl.
    repeat match goal with
           | |- _ ∉ flat_map (fun member => buildMember _ _ _) _ =>
               apply member_lines_end_with_comma; by rewrite Hlast
           | |- _ ∉ flat_map (fun k => buildRequiredKey _ _ _ _) _ =>
               apply required_key_lines_end_with_comma; by rewrite Hlast
           | _ => progress never_line
           end.
Qed.
End SynthesizerExtras.

(** * The claim about the refinements on the number of keys *)
Section KeyCountRefinements.
Variable camel : string -> string.
Variable pascal : string -> string.
Variable z : string.
Variable isRequired : Member -> bool.
Variable getHttpMethodByName : string -> option HttpMethod.

Local Abbreviation buildMember :=
  (buildMember camel pascal z isRequired getHttpMethodByName).
Local Abbreviation buildSchema :=
  (buildSchema camel pascal z isRequired getHttpMethodByName).

(** C7 (amended). For every record entity with a map extension, the
    lines of its schema are the lines of the structural schema, then one
    refinement for the maximal number of keys when the entity has such a
    rule and one for the minimal number when it has such a rule, each with
    its test of the number of keys and its message, then the validation of
    the keys.  For every record entity without a map extension, whatever
    rules on the number of keys it has, the lines of its schema are those
    of the object of its properties, or of the open record when it has no
    property, and no refinement is among them. *)
Theorem key_count_refinements_with_map_extension (schema : Schema)
    (circ : list Schema) (properties : list Member)
    (mapProperties : option MapProperties) (objectRules : list ObjectRule) :
  element schema = Type_ properties mapProperties objectRules →
  match mapProperties with
  | Some mp =>
      buildSchema schema circ
      = (keyPreamble camel pascal z isRequired getHttpMethodByName
           schema properties (Some mp)
           ++ [exportLine pascal schema]
           ++ structuralLines camel pascal z isRequired getHttpMethodByName
                schema circ properties (Some mp) objectRules)
          ++ match maxPropertiesRule objectRules with
             | Some n =>
                 [".refine(";
                  "  data => Object.keys(data).length <= " +:+ pretty n +:+ ",";
                  "  { message: 'Object must have at most " +:+ pretty n
                    +:+ " keys' },";
                  ")"]
             | None => []
             end
          ++ match minPropertiesRule objectRules with
             | Some n =>
                 [".refine(";
                  "  data => Object.keys(data).length >= " +:+ pretty n +:+ ",";
                  "  { message: 'Object must have at least " +:+ pretty n
                    +:+ " keys' },";
                  ")"]
             | None => []
             end
          ++ keyValidation camel pascal schema properties (Some mp)
  | None =>
      buildSchema schema circ
      = ("export const " +:+ pascal (schemaName schema) +:+ "Schema = ")
        :: match properties with
           | [] => [z +:+ ".record(" +:+ z +:+ ".any())"]
           | _ :: _ =>
               [z +:+ ".object({"]
                 ++ flat_map (fun member => buildMember member schema circ)
                             properties
                 ++ ["})"]
           end
      ∧ ".refine(" ∉ buildSchema schema circ
  end.
Proof.
  intros He. destruct mapProperties as [mp|].
  - unfold_def buildSchema. rewrite He.
    unfold keyCountRefinements, maxKeysRefinement, minKeysRefinement.
    by rewrite <- !(assoc_L (++)).
  - assert (buildSchema schema circ
            = ("export const " +:+ pascal (schemaName schema) +:+ "Schema = ")
              :: match properties with
                 | [] => [z +:+ ".record(" +:+ z +:+ ".any())"]
                 | _ :: _ =>
                     [z +:+ ".object({"]
                       ++ flat_map (fun member => buildMember member schema circ)
                                   properties
                       ++ ["})"]
                 end) as Hlines.
    { unfold_def buildSchema. rewrite He.
      unfold keyPreamble, structuralLines, keyCountRefinements,
        keyValidation, exportLine.
      destruct properties as [|p ps]; cbn [length Nat.eqb negb orb app];
        by rewrite ?app_nil_r. }
    split; [exact Hlines|]. rewrite Hlines.
    assert (∀ t, firstChar t = Some "."%char → lastChar t = Some "("%char →
                 t ∉ ("export const " +:+ pascal (schemaName schema)
                        +:+ "Schema = ")
                     :: match properties with
                        | [] => [z +:+ ".record(" +:+ z +:+ ".any())"]
                        | _ :: _ =>
                            [z +:+ ".object({"]
                              ++ flat_map
                                   (fun member => buildMember member schema circ)
                                   properties
                              ++ ["})"]
                        end) as Hnever; [|by apply Hnever].
    intros t Hfirst Hlast.
    repeat match goal with
           | |- _ ∉ flat_map (fun member => buildMember _ _ _) _ =>
               apply (member_lines_end_with_comma camel pascal z isRequired
                        getHttpMethodByName); by rewrite Hlast
           | _ => progress never_line
           end.
Qed.
End KeyCountRefinements.

(** * More about the generator of [src/schema-file.ts] *)

Lemma filter_fmap_commute {A B} (f : A → B) (P : B → Prop) (Q : A → Prop)
    `{∀ y, Decision (P y)} `{∀ x, Decision (Q x)} (l : list A) :
  (∀ x, P (f x) ↔ Q x) → filter P (f <$> l) = f <$> filter Q l.
Proof.
  intros HPQ. induction l as [|x l IH]; [done|].
  rewrite fmap_cons, !filter_cons, IH.
  destruct (decide (P (f x))) as [HP|HP], (decide (Q x)) as [HQ|HQ];
    try done; by apply HPQ in HP || apply HPQ in HQ.
Qed.

Lemma arraySort_fmap {A B} (f : A → B) (cmpB : B → B → Z) (cmpA : A → A → Z)
    (l : list A) :
  (∀ a b, cmpB (f a) (f b) = cmpA a b) →
  arraySort cmpB (f <$> l) = f <$> arraySort cmpA l.
Proof.
  intros Hcmp.
  assert (∀ x k, insertSorted cmpB (f x) (f <$> k) = f <$> insertSorted cmpA x k)
    as Hins.
  { intros x k. induction k as [|y k IH]; [done|].
    rewrite fmap_cons. cbn [insertSorted]. rewrite Hcmp.
    destruct (cmpA x y <=? 0)%Z; [by rewrite !fmap_cons|].
    by rewrite fmap_cons, IH. }
  induction l as [|x l IH]; [done|].
  rewrite fmap_cons. cbn [arraySort]. by rewrite IH, Hins.
Qed.

Section SchemaFileTsExtras.
Variable camel : string -> string.
Variable pascal : string -> string.
Variable z : string.
Variable isRequiredValue : SchemaFileTs.MemberValue -> bool.
Variable getHttpMethodByName : string -> option HttpMethod.
Variable localeCompare : string -> string -> Z.

Lemma embedSchema_complexMembers s :
  complexMembers pascal (embedSchema s) = SchemaFileTs.complexMembers pascal s.
Proof.
  unfold complexMembers, SchemaFileTs.complexMembers, embedSchema. simpl.
  assert (∀ ms, complexNames pascal (map embedMember ms)
                = SchemaFileTs.complexNames pascal ms) as Hnames.
  { intros ms. unfold complexNames, SchemaFileTs.complexNames.
    induction ms as [|m ms IH]; [done|]. simpl.
    destruct (SchemaFileTs.isPrimitiveValue (SchemaFileTs.value m)); simpl;
      by rewrite IH. }
  destruct (SchemaFileTs.element s) as [ps|n ps|ms|ms|ms|vs]; simpl;
    rewrite ?Hnames, ?app_nil_r; try done.
  - unfold complexNames. by induction ms as [|m ms IH].
  - unfold complexNames. induction ms as [|m ms IH]; [done|].
    simpl. by rewrite <- IH.
  - unfold complexNames. induction ms as [|m ms IH]; [done|].
    simpl. by rewrite <- IH.
Qed.

Lemma embedSchema_ready names s :
  ready pascal names (embedSchema s) = SchemaFileTs.ready pascal names s.
Proof.
  unfold ready, SchemaFileTs.ready. by rewrite embedSchema_complexMembers.
Qed.

Lemma embedSchema_names (l : list SchemaFileTs.Schema) :
  schemaName <$> (embedSchema <$> l) = SchemaFileTs.schemaName <$> l.
Proof. rewrite <- list_fmap_compose. by apply list_fmap_ext. Qed.

(** One pass of [src/schema-file.ts] and one pass of the other loop on the
    same entities. *)
Lemma schemaFileTs_pass_simulation st :
  match SchemaFileTs.pass pascal localeCompare st with
  | inl st' =>
      pass pascal localeCompare (embedState st) = inl (embedState st')
      ∧ SchemaFileTs.sorted st' ++ SchemaFileTs.unsorted st'
        ≡ₚ SchemaFileTs.sorted st ++ SchemaFileTs.unsorted st
  | inr r =>
      ∃ c, pass pascal localeCompare (embedState st)
           = inr (embedSchema <$> r, embedSchema <$> c)
           ∧ r ++ c ≡ₚ SchemaFileTs.sorted st ++ SchemaFileTs.unsorted st
  end.
Proof.
  assert (filter (ready pascal (SchemaFileTs.sortedNames st))
                 (embedSchema <$> SchemaFileTs.unsorted st)
          = embedSchema
              <$> filter (SchemaFileTs.ready pascal (SchemaFileTs.sortedNames st))
                         (SchemaFileTs.unsorted st)) as Hyes.
  { apply filter_fmap_commute. intros s. by rewrite embedSchema_ready. }
  assert (filter (fun s => ¬ ready pascal (SchemaFileTs.sortedNames st) s)
                 (embedSchema <$> SchemaFileTs.unsorted st)
          = embedSchema
              <$> filter (fun s => ¬ SchemaFileTs.ready pascal
                                      (SchemaFileTs.sortedNames st) s)
                         (SchemaFileTs.unsorted st)) as Hno.
  { apply filter_fmap_commute. intros s. by rewrite embedSchema_ready. }
  pose proof (filter_app_complement
                (SchemaFileTs.ready pascal (SchemaFileTs.sortedNames st))
                (SchemaFileTs.unsorted st)) as Hsplit.
  pose proof (arraySort_Permutation
                (SchemaFileTs.compareSchemas localeCompare)
                (filter (SchemaFileTs.ready pascal (SchemaFileTs.sortedNames st))
                        (SchemaFileTs.unsorted st))) as Hsort.
  unfold pass, SchemaFileTs.pass, sortedSortable, unsortable, embedState.
  cbn [sorted unsorted sortedNames prevUnsortedLength].
  rewrite Hyes, Hno, length_fmap.
  rewrite (arraySort_fmap embedSchema (compareSchemas localeCompare)
             (SchemaFileTs.compareSchemas localeCompare)) by done.
  destruct (SchemaFileTs.prevUnsortedLength st =? _); cbv beta iota.
  - eexists. rewrite fmap_app. split; [done|].
    by rewrite <- (assoc_L (++)), Hsort, Hsplit.
  - cbn [SchemaFileTs.sorted SchemaFileTs.unsorted SchemaFileTs.sortedNames
         SchemaFileTs.prevUnsortedLength].
    rewrite fmap_app, embedSchema_names. split; [done|].
    by rewrite <- (assoc_L (++)), Hsort, Hsplit.
Qed.

(** The loop of [src/schema-file.ts] returns the sorted list that the
    other loop returns on the same entities, and leaves out what the other
    loop returns as circular. *)
Lemma schemaFileTs_sortLoop_simulation fuel st r :
  SchemaFileTs.sortLoop pascal localeCompare fuel st = Some r →
  ∃ c, sortLoop pascal localeCompare fuel (embedState st)
       = Some (embedSchema <$> r, embedSchema <$> c)
       ∧ r ++ c ≡ₚ SchemaFileTs.sorted st ++ SchemaFileTs.unsorted st.
Proof.
  revert st. induction fuel as [|fuel IH]; intros st.
  - simpl. destruct (SchemaFileTs.unsorted st) eqn:Hu; [|done].
    intros [= <-]. exists []. by rewrite app_nil_r.
  - cbn [SchemaFileTs.sortLoop sortLoop].
    pose proof (schemaFileTs_pass_simulation st) as Hpass.
    change (unsorted (embedState st))
      with (embedSchema <$> SchemaFileTs.unsorted st).
    destruct (SchemaFileTs.unsorted st) as [|x u] eqn:Hu.
    { intros [= <-]. exists []. by rewrite app_nil_r. }
    rewrite fmap_cons.
    destruct (SchemaFileTs.pass pascal localeCompare st) as [st'|r'].
    + destruct Hpass as [-> Hperm]. intros Hr.
      apply IH in Hr as (c & Hmain & Hperm'). exists c.
      split; [done|]. by rewrite Hperm', Hperm.
    + destruct Hpass as (c & -> & Hperm). intros [= <-]. by exists c.
Qed.

Lemma schemaFileTs_sort_simulation l :
  ∃ r c,
    SchemaFileTs.sort pascal localeCompare l = Some r
    ∧ sort pascal localeCompare (embedSchema <$> l)
      = Some (embedSchema <$> r, embedSchema <$> c)
    ∧ r ++ c ≡ₚ l.
Proof.
  destruct (schemaFileTs_sortLoop_total pascal localeCompare (length l)
              (SchemaFileTs.mkLoopState [] l ∅ (length l)))
    as [r Hr]; [done..|].
  destruct (schemaFileTs_sortLoop_simulation _ _ _ Hr) as (c & Hmain & Hperm).
  exists r, c. split_and!; [done| |done].
  unfold sort, sortWithin, initialState. by rewrite length_fmap.
Qed.

Lemma embedSchema_blocked s e :
  blocked pascal (embedSchema <$> s) (embedSchema e) ↔ tsBlocked pascal s e.
Proof.
  unfold blocked, tsBlocked.
  by rewrite embedSchema_complexMembers, embedSchema_names.
Qed.

(** X12. The resolver of [src/schema-file.ts] always returns; the list it
    returns, together with the entities it leaves out, is a permutation of
    the worklist, and the entities it leaves out are the blocked ones: each
    has a complex member that names neither the entity itself nor a
    returned entity. *)
Theorem schemaFileTs_sort_leaves_out_blocked
    (l : list SchemaFileTs.Schema) :
  ∃ sortedSchemas leftOut,
    SchemaFileTs.sort pascal localeCompare l = Some sortedSchemas
    ∧ sortedSchemas ++ leftOut ≡ₚ l
    ∧ (∀ e, e ∈ leftOut → tsBlocked pascal sortedSchemas e)
    ∧ (∀ e, e ∈ sortedSchemas → ¬ tsBlocked pascal sortedSchemas e).
Proof.
  destruct (schemaFileTs_sort_simulation l) as (r & c & Hr & Hmain & Hperm).
  destruct (sort_result _ _ _ _ _ Hmain) as (_ & Hdeps & Hblocked).
  exists r, c. split_and!; [done..| |].
  - intros e He. apply embedSchema_blocked, Hblocked.
    by apply list_elem_of_fmap_2.
  - intros e He Hb%embedSchema_blocked. revert Hb.
    apply sorted_not_blocked; [done|]. by apply list_elem_of_fmap_2.
Qed.

(** X13. In the list that the resolver of [src/schema-file.ts] returns,
    every complex member of an entity names the entity itself or an entity
    at a smaller index. *)
Theorem schemaFileTs_sort_has_dependencies_first
    (l : list SchemaFileTs.Schema) :
  ∃ sortedSchemas,
    SchemaFileTs.sort pascal localeCompare l = Some sortedSchemas
    ∧ ∀ j e n,
        sortedSchemas !! j = Some e →
        n ∈ SchemaFileTs.complexMembers pascal e →
        n = SchemaFileTs.schemaName e
        ∨ ∃ i d, i < j ∧ sortedSchemas !! i = Some d
                 ∧ SchemaFileTs.schemaName d = n.
Proof.
  destruct (schemaFileTs_sort_simulation l) as (r & c & Hr & Hmain & _).
  destruct (sort_result _ _ _ _ _ Hmain) as (_ & Hdeps & _).
  exists r. split; [done|]. intros j e n Hj Hn.
  rewrite <- embedSchema_complexMembers in Hn.
  destruct (Hdeps j (embedSchema e) n) as [?|(i & d' & Hlt & Hi & Hd)];
    [by apply list_lookup_fmap_Some_2|done|by left|].
  apply list_lookup_fmap_Some_1 in Hi as (d & -> & Hi).
  right. by exists i, d.
Qed.

(** X14. In a worklist of [src/schema-file.ts] with unique names, two
    entities that refer to each other are left out of the list that the
    resolver returns, and [body] emits the lines of the returned entities
    only: the entities of the cycle get no declaration. *)
Theorem schemaFileTs_drops_cycles (l : list SchemaFileTs.Schema)
    (a b : SchemaFileTs.Schema) :
  tsUniqueNames l → tsRefersTo pascal l a b → tsRefersTo pascal l b a →
  ∃ sortedSchemas,
    SchemaFileTs.sort pascal localeCompare l = Some sortedSchemas
    ∧ (a ∉ sortedSchemas) ∧ (b ∉ sortedSchemas)
    ∧ SchemaFileTs.body camel pascal z isRequiredValue getHttpMethodByName
        localeCompare l
      = Some (flat_map
                (fun schema =>
                   SchemaFileTs.schemaLines camel pascal z isRequiredValue
                     getHttpMethodByName schema ++ [""])
                sortedSchemas).
Proof.
  intros Huniq Hab Hba.
  destruct (schemaFileTs_sort_simulation l) as (r & c & Hr & Hmain & Hperm).
  destruct (sort_result _ _ _ _ _ Hmain) as (Hperm' & Hdeps & _).
  assert (uniqueNames (embedSchema <$> l)) as Huniq'.
  { unfold uniqueNames. by rewrite embedSchema_names. }
  assert (∀ x y, tsRefersTo pascal l x y →
                 refersTo pascal (embedSchema <$> l)
                          (embedSchema x) (embedSchema y)) as Hrefers.
  { intros x y (Hx & Hy & Hn & Hne).
    split_and!; [by apply list_elem_of_fmap_2..| |done].
    by rewrite embedSchema_complexMembers. }
  assert (∀ x y, tsRefersTo pascal l x y → tsRefersTo pascal l y x → x ∉ r)
    as Hout.
  { intros x y Hxy Hyx Hx.
    assert (embedSchema <$> r ⊆ embedSchema <$> l) as Hsub.
    { intros e He. rewrite <- Hperm'. apply elem_of_app. by left. }
    assert (NoDup (embedSchema <$> r)) as Hnd.
    { apply uniqueNames_NoDup in Huniq'. rewrite <- Hperm' in Huniq'.
      by apply NoDup_app in Huniq' as [? _]. }
    pose proof (dependenciesFirst_precedes pascal _ _ _ _ Huniq' Hsub Hdeps
                  (list_elem_of_fmap_2 embedSchema _ _ Hx)
                  (Hrefers _ _ Hxy)) as Hyx'.
    assert (embedSchema y ∈ embedSchema <$> r) as Hy.
    { destruct Hyx' as (i & j & _ & Hi & _).
      by eapply list_elem_of_lookup_2. }
    pose proof (dependenciesFirst_precedes pascal _ _ _ _ Huniq' Hsub Hdeps
                  Hy (Hrefers _ _ Hyx)) as Hxy'.
    by eapply precedes_asym. }
  exists r. split_and!; [done|by eapply Hout..|].
  unfold SchemaFileTs.body. by rewrite Hr.
Qed.
End SchemaFileTsExtras.

(** * Every entity is declared *)

Lemma string_app_nil_r (a : string) : a +:+ "" = a.
Proof.
  induction a as [|x a IH]; [done|].
  change (String x (a +:+ "") = String x a). by f_equal.
Qed.

Section Declarations.
Variable camel : string -> string.
Variable pascal : string -> string.
Variable z : string.
Variable isRequired : Member -> bool.
Variable getHttpMethodByName : string -> option HttpMethod.
Variable localeCompare : string -> string -> Z.

Local Abbreviation buildSchema :=
  (buildSchema camel pascal z isRequired getHttpMethodByName).
Local Abbreviation body :=
  (body camel pascal z isRequired getHttpMethodByName localeCompare).

Lemma buildSchema_has_export_line x circ :
  ∃ rest, exportLine pascal x +:+ rest ∈ buildSchema x circ.
Proof.
  unfold_def buildSchema.
  destruct (element x) as [ps mp rs|n ps|ms d|vs].
  - exists "". rewrite string_app_nil_r. cbn [app]. find_op.
  - eexists. cbn [app]. apply list_elem_of_here.
  - unfold unionLines.
    destruct (List.filter _ ms) as [|only [|]]; destruct d;
      eexists; cbn [app]; apply list_elem_of_here.
  - eexists. cbn [app]. apply list_elem_of_here.
Qed.

(** X15. For every entity of the worklist, sorted or circular, the lines
    that [body] returns contain a line that opens its declaration:
    [export const <Name>Schema = ...]. *)
Theorem every_entity_is_declared (l : list Schema) (e : Schema) :
  e ∈ l →
  ∃ lines rest,
    body l = Some lines
    ∧ "export const " +:+ pascal (schemaName e) +:+ "Schema = " +:+ rest
      ∈ lines.
Proof.
  intros He.
  destruct (sort_total pascal localeCompare l) as [[s c] Hsort].
  pose proof (sortLoop_Permutation _ _ _ _ _ _ Hsort) as Hperm.
  simpl in Hperm. rewrite <- Hperm in He.
  assert (∀ circ, ∃ rest,
            "export const " +:+ pascal (schemaName e) +:+ "Schema = " +:+ rest
            ∈ buildSchema e circ) as Hline.
  { intros circ. destruct (buildSchema_has_export_line e circ) as [rest Hin].
    exists rest. unfold exportLine in Hin.
    by rewrite !string_app_assoc in Hin. }
  unfold_def body. rewrite Hsort.
  apply elem_of_app in He as [He|He].
  - destruct (Hline []) as [rest Hin]. eexists _, rest. split; [done|].
    by apply (buildSchema_in_emitSchemas_sorted _ _ _ _ _ e).
  - destruct (Hline c) as [rest Hin]. eexists _, rest. split; [done|].
    by apply (buildSchema_in_emitSchemas _ _ _ _ _ e).
Qed.
End Declarations.

(** * The further properties on the sample models *)

(** X1 on [Book] in the worklist with the cycle of [Author] and [Book]. *)
Lemma circular_iff_blocked_witness :
  ∃ sortedSchemas circ,
    sort pascalWord localeCompareAscii cyclicWorklist
    = Some (sortedSchemas, circ)
    ∧ (bookType ∈ circ ↔ blocked pascalWord sortedSchemas bookType)
    ∧ (bookType ∈ sortedSchemas ↔ ¬ blocked pascalWord sortedSchemas bookType).
Proof.
  exact (circular_iff_blocked pascalWord localeCompareAscii cyclicWorklist
           bookType (list_elem_of_here bookType [colorEnum; authorType])).
Defined.

(** X3 on [Author], which refers to [Book]. *)
Lemma dependents_of_circular_are_circular_witness :
  ∃ sortedSchemas circ,
    sort pascalWord localeCompareAscii cyclicWorklist
    = Some (sortedSchemas, circ)
    ∧ (bookType ∈ circ → authorType ∈ circ).
Proof.
  exact (dependents_of_circular_are_circular pascalWord localeCompareAscii
           cyclicWorklist authorType bookType cyclicWorklist_uniqueNames
           cyclicWorklist_author_book).
Defined.

(** X4 on [Order], whose buyer is of a type that the worklist has not. *)
Lemma unresolved_reference_makes_circular_witness :
  ∃ sortedSchemas circ,
    sort pascalWord localeCompareAscii [orderType; colorEnum]
    = Some (sortedSchemas, circ)
    ∧ orderType ∈ circ.
Proof.
  apply (unresolved_reference_makes_circular pascalWord localeCompareAscii
           [orderType; colorEnum] orderType "Customer").
  - apply list_elem_of_here.
  - vm_compute. apply list_elem_of_here.
  - done.
  - change ("Customer" ∉ ["Order"; "Color"]). rewrite !not_elem_of_cons.
    split_and!; [done..|apply not_elem_of_nil].
Defined.

(** X5 on [Employee], which refers to itself. *)
Lemma self_reference_never_blocks_witness :
  ∃ sortedSchemas circ,
    sort pascalWord localeCompareAscii [employeeType; orderType]
    = Some (sortedSchemas, circ)
    ∧ employeeType ∈ sortedSchemas.
Proof.
  apply (self_reference_never_blocks pascalWord localeCompareAscii
           [employeeType; orderType] employeeType).
  - apply list_elem_of_here.
  - intros n Hn. vm_compute in Hn.
    by apply list_elem_of_singleton in Hn.
Defined.

(** X8 on a parameter that is at least zero. *)
Lemma zero_bounds_are_named_witness :
  "nonnegative()" ∈ memberOps camelWord pascalWord "z" hasRequiredRule
                      sampleBindings offsetParameter listWidgetsParams
                      noOptions.
Proof.
  exact (proj1 (proj2 (proj2 (zero_bounds_are_named camelWord pascalWord "z"
                                hasRequiredRule sampleBindings
                                offsetParameter listWidgetsParams noOptions)
                         eq_refl eq_refl eq_refl))
           eq_refl).
Defined.

(** X9 on an array of at least one tag. *)
Lemma min_one_is_nonempty_witness :
  "nonempty()" ∈ memberOps camelWord pascalWord "z" hasRequiredRule
                   sampleBindings tagsProperty userType noOptions.
Proof.
  exact (proj2 (min_one_is_nonempty camelWord pascalWord "z" hasRequiredRule
                  sampleBindings tagsProperty userType noOptions)
           eq_refl eq_refl).
Defined.


(** X11 on the record with a pattern on its keys and on the record with
    keys of the type [Tag]. *)
Lemma key_set_declared_only_with_key_rules_witness :
  ("const  __labelsKeys = new Set(['label']);"
   ∈ buildSchema camelWord pascalWord "z" hasRequiredRule sampleBindings
       patternKeyed []
   ∧ "    if ( __labelsKeys.has(key)) continue;"
     ∈ buildSchema camelWord pascalWord "z" hasRequiredRule sampleBindings
         patternKeyed [])
  ∧ ("    if ( __taggedKeys.has(key)) continue;"
     ∈ buildSchema camelWord pascalWord "z" hasRequiredRule sampleBindings
         tagKeyed []
     ∧ "const  __taggedKeys = new Set(['label']);"
       ∉ buildSchema camelWord pascalWord "z" hasRequiredRule sampleBindings
           tagKeyed []).
Proof.
  split.
  - refine (proj1 (key_set_declared_only_with_key_rules camelWord pascalWord
                     "z" hasRequiredRule sampleBindings patternKeyed []
                     [labelProperty] _ [] eq_refl _) _); done.
  - refine (proj2 (key_set_declared_only_with_key_rules camelWord pascalWord
                     "z" hasRequiredRule sampleBindings tagKeyed []
                     [labelProperty] _ [] eq_refl _) eq_refl eq_refl); done.
Defined.

Lemma cyclicWorklistTs_uniqueNames : tsUniqueNames cyclicWorklistTs.
Proof.
  unfold tsUniqueNames. apply (bool_decide_unpack _). by vm_compute.
Qed.

Lemma cyclicWorklistTs_author_book :
  tsRefersTo pascalWord cyclicWorklistTs authorTypeTs bookTypeTs.
Proof.
  split_and!; [by repeat constructor..| |done].
  vm_compute. by repeat constructor.
Qed.

Lemma cyclicWorklistTs_book_author :
  tsRefersTo pascalWord cyclicWorklistTs bookTypeTs authorTypeTs.
Proof.
  split_and!; [by repeat constructor..| |done].
  vm_compute. by repeat constructor.
Qed.

(** X14 on the cycle of [Author] and [Book] in [src/schema-file.ts]. *)
Lemma schemaFileTs_drops_cycles_witness :
  ∃ sortedSchemas,
    SchemaFileTs.sort pascalWord localeCompareAscii cyclicWorklistTs
    = Some sortedSchemas
    ∧ (authorTypeTs ∉ sortedSchemas) ∧ (bookTypeTs ∉ sortedSchemas)
    ∧ SchemaFileTs.body camelWord pascalWord "z" (fun _ => true)
        sampleBindings localeCompareAscii cyclicWorklistTs
      = Some (flat_map
                (fun schema =>
                   SchemaFileTs.schemaLines camelWord pascalWord "z"
                     (fun _ => true) sampleBindings schema ++ [""])
                sortedSchemas).
Proof.
  exact (schemaFileTs_drops_cycles camelWord pascalWord "z" (fun _ => true)
           sampleBindings localeCompareAscii cyclicWorklistTs
           authorTypeTs bookTypeTs cyclicWorklistTs_uniqueNames
           cyclicWorklistTs_author_book cyclicWorklistTs_book_author).
Defined.

(** X15 on [Author] in the worklist with the cycle of [Author] and
    [Book]. *)
Lemma every_entity_is_declared_witness :
  ∃ lines rest,
    body camelWord pascalWord "z" hasRequiredRule sampleBindings
      localeCompareAscii cyclicWorklist = Some lines
    ∧ "export const " +:+ pascalWord (schemaName authorType) +:+ "Schema = "
        +:+ rest ∈ lines.
Proof.
  exact (every_entity_is_declared camelWord pascalWord "z" hasRequiredRule
           sampleBindings localeCompareAscii cyclicWorklist authorType
           (list_elem_of_further _ _ _
              (list_elem_of_further _ _ _ (list_elem_of_here _ _)))).
Defined.

(** The output of [src/schema-file.ts] for the worklist with the cycle:
    the enum only. *)
Example schemaFileTs_cyclic_worklist_output :
  SchemaFileTs.body camelWord pascalWord "z" (fun _ => true) sampleBindings
    localeCompareAscii cyclicWorklistTs
  = Some ["export const ColorSchema = z.enum(["; "  'red',"; "  'green',";
          "]);"; ""].
Proof. by vm_compute. Qed.

(** The lines of the record with keys of the type [Tag]. *)
Example tagKeyed_lines :
  buildSchema camelWord pascalWord "z" hasRequiredRule sampleBindings
    tagKeyed []
  = ["export const TaggedSchema = "; "z.object({"; "label: z.string(),";
     "})"; ".catchall(z.string())";
     ".superRefine((data, ctx) => {";
     "  for (const key of Object.keys(data)) {";
     "    if ( __taggedKeys.has(key)) continue;";
     "";
     "    const result = TagSchema.safeParse(key);";
     "    if (result.success) continue;";
     "";
     "    for (const error of result.error.errors) {";
     "      ctx.addIssue({";
     "        code: z.ZodIssueCode.custom,";
     "        message: `Invalid key: ${error.message}`,";
     "        path: [key],";
     "      });";
     "    }";
     "  }";
     "})"].
Proof. by vm_compute. Qed.

(** C7 (amended) on the sample record with a map extension and on the
    sample record with the same rules and no map extension. *)
Lemma key_count_refinements_with_map_extension_witness :
  buildSchema camelWord pascalWord "z" hasRequiredRule sampleBindings
    mapSettings []
  = ["export const SettingsSchema = ";
     "z.record(z.string())";
     ".refine(";
     "  data => Object.keys(data).length <= 5,";
     "  { message: 'Object must have at most 5 keys' },";
     ")";
     ".refine(";
     "  data => Object.keys(data).length >= 1,";
     "  { message: 'Object must have at least 1 keys' },";
     ")"]
  ∧ buildSchema camelWord pascalWord "z" hasRequiredRule sampleBindings
      plainSettings []
    = ["export const SettingsSchema = "; "z.object({"; "theme: z.string(),";
       "})"]
  ∧ ".refine(" ∉ buildSchema camelWord pascalWord "z" hasRequiredRule
                   sampleBindings plainSettings [].
Proof.
  split.
  - exact (key_count_refinements_with_map_extension camelWord pascalWord "z"
             hasRequiredRule sampleBindings mapSettings [] []
             (Some stringMap) settingsRules eq_refl).
  - exact (key_count_refinements_with_map_extension camelWord pascalWord "z"
             hasRequiredRule sampleBindings plainSettings []
             [property "theme" "string" true [Required]] None
             settingsRules eq_refl).
Defined.
